(** * PaginationDetector: a shallow embedding of [lib/pagination-detector.js]

    The detector reads a rendered HTML document, looks for the control that
    leads to the next page of a listing, and drives the transition.  This
    file embeds the class method by method and states its specification.

    Layout:
    - [JsString]: JavaScript strings as sequences of UTF-16 code units;
    - [Re]: the regular expressions of the source and [RegExp.prototype.test];
    - [Dom]: elements, the selectors the source queries, [querySelectorAll];
    - the detector itself (the six matchers, [findNextPage],
      [navigateToNextPage], [waitForNewContent], [getPaginationInfo]);
    - small documents and worlds to run the detector on;
    - the vocabulary of the specification, then the theorems.

    Documents are HTML documents in no-quirks mode made of HTML elements;
    what the rendering engine computes for an element (resolved [href],
    computed style, bounding box) is data of the element. *)

From Stdlib Require Import List ZArith NArith String Ascii Bool QArith Lia.
Import ListNotations.

Set Warnings "-register-all".
Set Implicit Arguments.

(* ================================================================== *)
(** ** JavaScript strings *)
(* ================================================================== *)

Module JsString.

(** A JavaScript string is a finite sequence of UTF-16 code units. *)
Definition str := list N.

(** Decoding of a UTF-8 byte sequence into UTF-16 code units, so that the
    literals of the source can be written as they appear there. *)
Fixpoint utf8_units (bs : list N) : str :=
  match bs with
  | [] => []
  | b0 :: t0 =>
    if (b0 <? 128)%N then b0 :: utf8_units t0
    else match t0 with
    | [] => [b0]
    | b1 :: t1 =>
      if (b0 <? 224)%N then ((b0 - 192) * 64 + (b1 - 128))%N :: utf8_units t1
      else match t1 with
      | [] => [b0]
      | b2 :: t2 =>
        if (b0 <? 240)%N
        then ((b0 - 224) * 4096 + (b1 - 128) * 64 + (b2 - 128))%N :: utf8_units t2
        else match t2 with
        | [] => [b0]
        | b3 :: t3 =>
          let cp := ((b0 - 240) * 262144 + (b1 - 128) * 4096
                     + (b2 - 128) * 64 + (b3 - 128))%N in
          (55296 + (cp - 65536) / 1024)%N
            :: (56320 + (cp - 65536) mod 1024)%N :: utf8_units t3
        end
      end
    end
  end.

Definition js (s : string) : str :=
  utf8_units (map N_of_ascii (list_ascii_of_string s)).

Definition str_eqb (a b : str) : bool :=
  if list_eq_dec N.eq_dec a b then true else false.

(** WhiteSpace and LineTerminator code points of ECMAScript: what
    [String.prototype.trim] strips, what [\s] matches and what [parseInt]
    skips. *)
Definition isWhiteSpace (c : N) : bool :=
  ((9 <=? c) && (c <=? 13) || (c =? 32) || (c =? 160) || (c =? 5760)
   || (8192 <=? c) && (c <=? 8202) || (c =? 8232) || (c =? 8233)
   || (c =? 8239) || (c =? 8287) || (c =? 12288) || (c =? 65279))%N.

(** Line terminators, which [.] does not match. *)
Definition isLineTerminator (c : N) : bool :=
  ((c =? 10) || (c =? 13) || (c =? 8232) || (c =? 8233))%N.

Definition isDigit (c : N) : bool := ((48 <=? c) && (c <=? 57))%N.

Fixpoint trimStart (s : str) : str :=
  match s with
  | c :: t => if isWhiteSpace c then trimStart t else s
  | [] => []
  end.

(** [String.prototype.trim] *)
Definition trim (s : str) : str := rev (trimStart (rev (trimStart s))).

Fixpoint startsWith (p s : str) : bool :=
  match p, s with
  | [], _ => true
  | _ :: _, [] => false
  | a :: p', b :: s' => (a =? b)%N && startsWith p' s'
  end.

(** [s.includes(p)] *)
Fixpoint includes (s p : str) : bool :=
  startsWith p s || match s with [] => false | _ :: t => includes t p end.

Fixpoint stripPrefix (p s : str) : option str :=
  match p, s with
  | [], _ => Some s
  | _ :: _, [] => None
  | a :: p', b :: s' => if (a =? b)%N then stripPrefix p' s' else None
  end.

(** Truthiness of a value that is a string, [null] or [undefined]:
    only a non-empty string is truthy. *)
Definition truthy (o : option str) : bool :=
  match o with Some (_ :: _) => true | _ => false end.

(** [a || b] on such values, when [b] is such a value too. *)
Definition orElse (a b : option str) : option str :=
  if truthy a then a else b.

(** [a || ''] *)
Definition orEmpty (a : option str) : str :=
  match a with Some (c :: t) => c :: t | _ => [] end.

(** *** [parseInt(s)] with no radix argument.

    Leading white space is skipped, a sign is read, a [0x]/[0X] prefix
    selects radix 16, and the longest run of digits of the radix is the
    value; [None] stands for [NaN].  The value is the mathematical
    integer, which is the Number [parseInt] returns up to 2^53. *)
Definition digitValue (c : N) : option Z :=
  if ((48 <=? c) && (c <=? 57))%N then Some (Z.of_N (c - 48))
  else if ((97 <=? c) && (c <=? 122))%N then Some (Z.of_N (c - 87))
  else if ((65 <=? c) && (c <=? 90))%N then Some (Z.of_N (c - 55))
  else None.

Fixpoint readDigits (radix : Z) (acc : option Z) (s : str) : option Z :=
  match s with
  | [] => acc
  | c :: t =>
    match digitValue c with
    | Some d =>
      if (d <? radix)%Z
      then readDigits radix
             (Some (match acc with Some a => a * radix + d | None => d end)%Z) t
      else acc
    | None => acc
    end
  end.

Definition parseInt (s : str) : option Z :=
  let s1 := trimStart s in
  let '(sign, s2) :=
    match s1 with
    | 45%N :: t => ((-1)%Z, t)
    | 43%N :: t => (1%Z, t)
    | _ => (1%Z, s1)
    end in
  let '(radix, s3) :=
    match s2 with
    | 48%N :: 120%N :: t => (16%Z, t)
    | 48%N :: 88%N :: t => (16%Z, t)
    | _ => (10%Z, s2)
    end in
  match readDigits radix None s3 with
  | Some v => Some (sign * v)%Z
  | None => None
  end.

End JsString.
Import JsString.

(* ================================================================== *)
(** ** Regular expressions *)
(* ================================================================== *)

Module Re.

(** The constructs the patterns of the source use. *)
Inductive regex : Type :=
| Void                          (* matches nothing *)
| Eps                           (* the empty string *)
| Chr (c : N)                   (* one literal code unit *)
| Dot                           (* [.]: anything but a line terminator *)
| Space                         (* [\s] *)
| Digit                         (* [\d] *)
| Cat (r1 r2 : regex)
| Alt (r1 r2 : regex)
| Star (r : regex).

Definition Opt (r : regex) : regex := Alt r Eps.
Definition Plus (r : regex) : regex := Cat r (Star r).

(** A literal word. *)
Fixpoint Lit (s : str) : regex :=
  match s with
  | [] => Eps
  | [c] => Chr c
  | c :: t => Cat (Chr c) (Lit t)
  end.

(** A pattern with its [i] flag; [^] and [$] occur in the source only at
    the two ends of one pattern and are kept as two flags. *)
Record RegExp := mkRegExp {
  body : regex;
  ignoreCase : bool;
  anchorStart : bool;
  anchorEnd : bool }.

(** Canonicalize of ECMAScript (patterns without the [u] flag): a code
    unit is replaced by its upper case when that is a single code unit,
    and a non-ASCII unit never becomes an ASCII one.  The table covers
    Basic Latin and Latin-1, where all cased letters of the source's
    patterns live (a-z, o-acute, a-diaeresis, o-stroke); other units are
    left alone, and none of them canonicalizes to a letter of a pattern. *)
Definition canonicalize (c : N) : N :=
  if ((97 <=? c) && (c <=? 122))%N then (c - 32)%N
  else if ((224 <=? c) && (c <=? 254) && negb (c =? 247))%N then (c - 32)%N
  else c.

Definition chrMatches (ic : bool) (p x : N) : bool :=
  if ic then (canonicalize p =? canonicalize x)%N else (p =? x)%N.

Fixpoint nullable (r : regex) : bool :=
  match r with
  | Void | Chr _ | Dot | Space | Digit => false
  | Eps | Star _ => true
  | Cat a b => nullable a && nullable b
  | Alt a b => nullable a || nullable b
  end.

Definition mkCat (a b : regex) : regex :=
  match a, b with
  | Void, _ => Void
  | _, Void => Void
  | Eps, _ => b
  | _, _ => Cat a b
  end.

Definition mkAlt (a b : regex) : regex :=
  match a, b with
  | Void, _ => b
  | _, Void => a
  | _, _ => Alt a b
  end.

(** Brzozowski derivative: what is left to match after reading [x]. *)
Fixpoint deriv (ic : bool) (x : N) (r : regex) : regex :=
  match r with
  | Void | Eps => Void
  | Chr p => if chrMatches ic p x then Eps else Void
  | Dot => if isLineTerminator x then Void else Eps
  | Space => if isWhiteSpace x then Eps else Void
  | Digit => if isDigit x then Eps else Void
  | Cat a b =>
    mkAlt (mkCat (deriv ic x a) b) (if nullable a then deriv ic x b else Void)
  | Alt a b => mkAlt (deriv ic x a) (deriv ic x b)
  | Star a => mkCat (deriv ic x a) (Star a)
  end.

(** Does [r] match a prefix of [s] (the whole of [s] when [toEnd])? *)
Fixpoint matchHere (ic toEnd : bool) (r : regex) (s : str) : bool :=
  match s with
  | [] => nullable r
  | x :: t => (negb toEnd && nullable r) || matchHere ic toEnd (deriv ic x r) t
  end.

(** Does [r] match at some start index of [s]? *)
Fixpoint matchAnywhere (ic toEnd : bool) (r : regex) (s : str) : bool :=
  matchHere ic toEnd r s
  || match s with [] => false | _ :: t => matchAnywhere ic toEnd r t end.

(** [re.test(s)] *)
Definition test (re : RegExp) (s : str) : bool :=
  if anchorStart re
  then matchHere (ignoreCase re) (anchorEnd re) (body re) s
  else matchAnywhere (ignoreCase re) (anchorEnd re) (body re) s.

(** [/body/i] and [/body/] *)
Definition ci (r : regex) : RegExp := mkRegExp r true false false.
Definition cs (r : regex) : RegExp := mkRegExp r false false false.

Definition word (s : string) : regex := Lit (js s).

(** Alternation of literal words. *)
Fixpoint anyOf (ws : list string) : regex :=
  match ws with
  | [] => Void
  | [w] => word w
  | w :: t => Alt (word w) (anyOf t)
  end.

(** The capture of the pattern of [getElementUrl],
    (?:location\.href|window\.location) \s* = \s* Q ([^Q]+) Q
    where Q is a single or a double quote, in [onclick.match(...)]: group 1
    of the leftmost match, [None] when there is no match.  After either
    literal the rest of the pattern has one way to match (white space, [=],
    white space, a quote, the longest run without quotes, a quote), so no
    backtracking is lost. *)
Definition isQuote (c : N) : bool := ((c =? 39) || (c =? 34))%N.

Fixpoint spanNoQuote (s : str) : str * str :=
  match s with
  | [] => ([], [])
  | c :: t =>
    if isQuote c then ([], s)
    else let '(a, b) := spanNoQuote t in (c :: a, b)
  end.

Definition assignedLiteral (rest : str) : option str :=
  match trimStart rest with
  | 61%N :: r2 =>
    match trimStart r2 with
    | q :: r4 =>
      if isQuote q then
        match spanNoQuote r4 with
        | (c :: cap, _ :: _) => Some (c :: cap)
        | _ => None
        end
      else None
    | [] => None
    end
  | _ => None
  end.

Definition locationAssignAt (s : str) : option str :=
  match
    match stripPrefix (js "location.href") s with
    | Some rest => assignedLiteral rest
    | None => None
    end
  with
  | Some u => Some u
  | None =>
    match stripPrefix (js "window.location") s with
    | Some rest => assignedLiteral rest
    | None => None
    end
  end.

Fixpoint locationAssign (s : str) : option str :=
  match locationAssignAt s with
  | Some u => Some u
  | None => match s with [] => None | _ :: t => locationAssign t end
  end.

End Re.

(* ================================================================== *)
(** ** The document *)
(* ================================================================== *)

Module Dom.

(** What the host computes for an element and the source reads through a
    property or a call: the [href] and [disabled] IDL properties,
    [innerText], three properties of [getComputedStyle(element)] and the
    size of [getBoundingClientRect()].  [None] for [hrefProp] is
    [undefined] (an element that has no such property, e.g. a button). *)
Record Props := mkProps {
  hrefProp : option str;
  disabledProp : bool;
  innerTextProp : str;
  styleDisplay : str;
  styleVisibility : str;
  styleOpacity : str;
  rectWidth : Q;
  rectHeight : Q }.

(** An HTML element: local name (lower case, as the parser leaves it),
    attributes in source order, host data, and child nodes, each a text
    node or an element. *)
Inductive Element : Type := mkElement {
  tagName : str;
  attributes : list (str * str);
  props : Props;
  childNodes : list (str + Element) }.

(** [document], with [window.location.href]. *)
Record Document := mkDocument {
  documentElement : Element;
  locationHref : str }.

(** [element.getAttribute(name)]; [None] is [null]. *)
Fixpoint lookupAttr (name : str) (l : list (str * str)) : option str :=
  match l with
  | [] => None
  | (k, v) :: t => if str_eqb k name then Some v else lookupAttr name t
  end.

Definition getAttribute (e : Element) (name : string) : option str :=
  lookupAttr (js name) (attributes e).

Definition hasAttribute (e : Element) (name : string) : bool :=
  match getAttribute e name with Some _ => true | None => false end.

(** [element.className] and [element.id] reflect the attributes. *)
Definition className (e : Element) : str :=
  match getAttribute e "class" with Some v => v | None => [] end.

Definition elementId (e : Element) : str :=
  match getAttribute e "id" with Some v => v | None => [] end.

(** [element.classList]: the class attribute split on ASCII white space. *)
Definition isAsciiWhiteSpace (c : N) : bool :=
  ((c =? 9) || (c =? 10) || (c =? 12) || (c =? 13) || (c =? 32))%N.

Fixpoint tokens (cur : str) (s : str) : list str :=
  match s with
  | [] => match cur with [] => [] | _ => [rev cur] end
  | c :: t =>
    if isAsciiWhiteSpace c
    then match cur with [] => tokens [] t | _ => rev cur :: tokens [] t end
    else tokens (c :: cur) t
  end.

Definition classList (e : Element) : list str := tokens [] (className e).

Definition classListContains (e : Element) (c : string) : bool :=
  existsb (str_eqb (js c)) (classList e).

(** [element.textContent]: the text nodes below the element, in order. *)
Fixpoint textContent (e : Element) : str :=
  flat_map (fun n => match n with inl s => s | inr c => textContent c end)
           (childNodes e).

(** The element and its descendants in document order, each with its
    ancestors (nearest first). *)
Fixpoint walk (anc : list Element) (e : Element) : list (list Element * Element) :=
  (anc, e)
    :: flat_map (fun n => match n with
                          | inl _ => []
                          | inr c => walk (e :: anc) c
                          end) (childNodes e).

(** *** Selectors

    The selectors of the source are lists of complex selectors built from
    type, class and attribute selectors and the descendant combinator. *)
Inductive simple : Type :=
| STag (t : string)               (* a *)
| SClass (c : string)             (* .pagination *)
| SHasAttr (a : string)           (* [href] *)
| SAttrEq (a : string) (v : str)  (* [role="button"] *)
| SAttrEqCI (a : string) (v : str).
  (* [rel="next"]: HTML makes the values of rel, among others, ASCII
     case-insensitive in attribute selectors *)

Definition compound := list simple.
(** Compounds joined by the descendant combinator, subject last. *)
Definition complex := list compound.
Definition selector := list complex.

Definition asciiLower (c : N) : N :=
  if ((65 <=? c) && (c <=? 90))%N then (c + 32)%N else c.

Definition matchesSimple (e : Element) (s : simple) : bool :=
  match s with
  | STag t => str_eqb (tagName e) (js t)
  | SClass c => classListContains e c
  | SHasAttr a => hasAttribute e a
  | SAttrEq a v =>
    match getAttribute e a with Some x => str_eqb x v | None => false end
  | SAttrEqCI a v =>
    match getAttribute e a with
    | Some x => str_eqb (map asciiLower x) (map asciiLower v)
    | None => false
    end
  end.

Definition matchesCompound (e : Element) (c : compound) : bool :=
  forallb (matchesSimple e) c.

(** The nearest ancestor matching [c], with what lies above it. *)
Fixpoint above (c : compound) (anc : list Element) : option (list Element) :=
  match anc with
  | [] => None
  | a :: up => if matchesCompound a c then Some up else above c up
  end.

(** [outer]: the compounds before the subject, innermost first. *)
Fixpoint matchesAncestors (outer : list compound) (anc : list Element) : bool :=
  match outer with
  | [] => true
  | c :: more =>
    match above c anc with
    | Some up => matchesAncestors more up
    | None => false
    end
  end.

Definition matchesComplex (anc : list Element) (e : Element) (cx : complex) : bool :=
  match rev cx with
  | [] => false
  | subject :: outer => matchesCompound e subject && matchesAncestors outer anc
  end.

Definition matchesSelector (sel : selector) (x : list Element * Element) : bool :=
  existsb (matchesComplex (fst x) (snd x)) sel.

(** [document.querySelectorAll(sel)] as an array. *)
Definition querySelectorAll (d : Document) (sel : selector) : list Element :=
  map snd (filter (matchesSelector sel) (walk [] (documentElement d))).

(** [document.querySelector(sel)] *)
Definition querySelector (d : Document) (sel : selector) : option Element :=
  hd_error (querySelectorAll d sel).

(** [container.querySelectorAll(sel)]: the descendants of the container.
    The source passes a selector without combinators here, for which the
    ancestors of the container play no part. *)
Definition querySelectorAllIn (container : Element) (sel : selector) : list Element :=
  map snd (filter (matchesSelector sel) (tl (walk [] container))).

(** [document.getElementById(id)] *)
Definition getElementById (d : Document) (id : str) : option Element :=
  find (fun e => match lookupAttr (js "id") (attributes e) with
                 | Some v => str_eqb v id
                 | None => false
                 end)
       (map snd (walk [] (documentElement d))).

End Dom.
Import Dom.

(* ================================================================== *)
(** ** The detector *)
(* ================================================================== *)

(** [String.prototype.toLowerCase] follows the Unicode case tables of the
    host; the detector is embedded over any such function. *)
Class Host := { toLowerCase : str -> str }.

(** The [type] tag of a candidate: ['rel-attribute'], ['text-content'],
    ['class-id'], ['aria-label'], ['numbered-pagination'],
    ['infinite-scroll']. *)
Inductive Strategy : Type :=
| RelAttribute | TextContent | ClassId | AriaLabel
| NumberedPagination | InfiniteScroll.

(** The object a matcher returns.  A key the object literal does not have
    is [None]; so is a [null] url. *)
Record Candidate := mkCandidate {
  element : option Element;
  url : option str;
  type : Strategy;
  confidence : Q;
  clickOnly : option bool;
  isLoadMore : option bool }.

(** *** The constructor's tables *)

Import Re.

Definition textPatterns : list RegExp :=
  [ ci (Cat (word "next") (Cat (Star Space) (Opt (word "page"))));
    ci (word "siguiente");
    ci (word "suivant");
    ci (word "weiter");
    ci (anyOf ["次へ"; "次のページ"]);
    ci (word "다음");
    ci (anyOf ["下一页"; "下一頁"]);
    ci (word "próxima");
    ci (word "volgende");
    ci (word "nästa");
    ci (word "følgende");
    cs (anyOf ["→"; "›"; "»"; "⟩"; "⇨"; "➔"; "➜"; "➡"]) ]%string.

Definition classIdPatterns : list RegExp :=
  [ ci (word "next");
    ci (Cat (word "pagination") (Cat (Star Dot) (word "next")));
    ci (Cat (word "nav") (Cat (Star Dot) (word "next")));
    ci (word "forward");
    ci (Cat (word "arrow") (Cat (Star Dot) (word "right")));
    ci (Cat (word "chevron") (Cat (Star Dot) (word "right"))) ].

Definition relPatterns : list str := [js "next"; js "nofollow next"].

Definition ariaPatterns : list RegExp :=
  [ ci (word "next"); ci (word "go to next"); ci (word "navigate to next") ].

Definition paginationSelectors : list selector :=
  [ [[[SClass "pagination"]]];
    [[[SClass "pager"]]];
    [[[SClass "page-navigation"]]];
    [[[SClass "nav-links"]]];
    [[[SAttrEq "role" (js "navigation")]]];
    [[[STag "nav"]]];
    [[[SClass "paginator"]]];
    [[[SClass "page-numbers"]]];
    [[[SClass "wp-pagenavi"]]];
    [[[SClass "pagination-wrapper"]]] ].

Definition infiniteScrollPatterns : list str :=
  map js [ "load more"; "show more"; "see more"; "view more";
           "cargar más"; "charger plus"; "mehr laden";
           "もっと見る"; "더 보기"; "加载更多" ]%string.

(** *** The selectors of the queries *)

(** [data-infinite-scroll], .infinite-scroll, [data-auto-pager] *)
Definition infiniteScrollMarkers : list selector :=
  [ [[[SHasAttr "data-infinite-scroll"]]];
    [[[SClass "infinite-scroll"]]];
    [[[SHasAttr "data-auto-pager"]]] ].

(** a[rel=V], link[rel=V] *)
Definition relSelector (relValue : str) : selector :=
  [ [[STag "a"; SAttrEqCI "rel" relValue]];
    [[STag "link"; SAttrEqCI "rel" relValue]] ].

(** a[href], button[onclick], button[data-href] *)
Definition clickableSelector : selector :=
  [ [[STag "a"; SHasAttr "href"]];
    [[STag "button"; SHasAttr "onclick"]];
    [[STag "button"; SHasAttr "data-href"]] ].

(** [aria-label], [aria-labelledby] *)
Definition ariaSelector : selector :=
  [ [[SHasAttr "aria-label"]]; [[SHasAttr "aria-labelledby"]] ].

(** a[href] *)
Definition linkSelector : selector := [ [[STag "a"; SHasAttr "href"]] ].

(** button, a[href], [role=button] *)
Definition buttonSelector : selector :=
  [ [[STag "button"]];
    [[STag "a"; SHasAttr "href"]];
    [[SAttrEq "role" (js "button")]] ].

(** .current, .active, [aria-current=page] *)
Definition currentSelector : selector :=
  [ [[SClass "current"]]; [[SClass "active"]];
    [[SAttrEq "aria-current" (js "page")]] ].

(** .pagination a, .pager a, .page-numbers a *)
Definition pageLinkSelector : selector :=
  [ [[SClass "pagination"]; [STag "a"]];
    [[SClass "pager"]; [STag "a"]];
    [[SClass "page-numbers"]; [STag "a"]] ].

(** a[rel=prev], .prev, .previous *)
Definition previousSelector : selector :=
  [ [[STag "a"; SAttrEqCI "rel" (js "prev")]];
    [[SClass "prev"]]; [[SClass "previous"]] ].

(** *** getElementText, getElementUrl, isValidNextPageElement *)

Definition space : str := [32%N].

Definition getElementText (el : option Element) : str :=
  match el with
  | None => []
  | Some e =>
    let text :=
      match textContent e with
      | [] => innerTextProp (props e)
      | t => t
      end in
    let text := text ++ space ++ orEmpty (getAttribute e "title") in
    let text := text ++ space ++ orEmpty (getAttribute e "alt") in
    let text := text ++ space ++ orEmpty (getAttribute e "value") in
    trim text
  end.

Definition getElementUrl (el : option Element) : option str :=
  match el with
  | None => None
  | Some e =>
    if truthy (hrefProp (props e)) then hrefProp (props e)
    else
      let dataHref :=
        orElse (orElse (getAttribute e "data-href") (getAttribute e "data-url"))
               (getAttribute e "data-link") in
      if truthy dataHref then dataHref
      else
        let onclick := getAttribute e "onclick" in
        if truthy onclick
        then match locationAssign (orEmpty onclick) with
             | Some u => Some u
             | None => None
             end
        else None
  end.

Definition isZero (q : Q) : bool := Qeq_bool q 0.

Definition isValidNextPageElement (el : option Element) : bool :=
  match el with
  | None => false
  | Some e =>
    let p := props e in
    if str_eqb (styleDisplay p) (js "none")
       || str_eqb (styleVisibility p) (js "hidden")
       || str_eqb (styleOpacity p) (js "0")
    then false
    else if isZero (rectWidth p) && isZero (rectHeight p) then false
    else if disabledProp p
            || match getAttribute e "disabled" with
               | Some v => str_eqb v (js "true")
               | None => false
               end
    then false
    else true
  end.

(** *** detectInfiniteScroll *)

Definition detectInfiniteScroll (d : Document) : bool :=
  existsb (fun sel => match querySelector d sel with
                      | Some _ => true
                      | None => false
                      end) infiniteScrollMarkers.

(** *** The six matchers

    Each [for ... of] loop of the source is a recursive function over the
    list it iterates; [return] inside a loop ends the recursion. *)

Definition relCandidate (link : Element) : Candidate :=
  mkCandidate (Some link) (hrefProp (props link)) RelAttribute 1.0 None None.

Fixpoint relLoop (d : Document) (rels : list str) : option Candidate :=
  match rels with
  | [] => None
  | relValue :: rest =>
    match querySelector d (relSelector relValue) with
    | Some link =>
      if isValidNextPageElement (Some link) then Some (relCandidate link)
      else relLoop d rest
    | None => relLoop d rest
    end
  end.

Definition findByRelAttribute (d : Document) : option Candidate :=
  relLoop d relPatterns.

(** The object literal shared by the text, class/id and ARIA matchers:
    [url: url || null] and [clickOnly: !url]. *)
Definition heuristicCandidate (e : Element) (ty : Strategy) (conf : Q) : Candidate :=
  let url := getElementUrl (Some e) in
  mkCandidate (Some e) (if truthy url then url else None) ty conf
              (Some (negb (truthy url))) None.

Fixpoint textPatternLoop (link : Element) (text : str) (ps : list RegExp)
  : option Candidate :=
  match ps with
  | [] => None
  | pattern :: rest =>
    if test pattern text then
      if isValidNextPageElement (Some link)
      then Some (heuristicCandidate link TextContent 0.9)
      else textPatternLoop link text rest
    else textPatternLoop link text rest
  end.

Fixpoint textLinkLoop (links : list Element) : option Candidate :=
  match links with
  | [] => None
  | link :: rest =>
    let text := getElementText (Some link) in
    match textPatternLoop link text textPatterns with
    | Some c => Some c
    | None => textLinkLoop rest
    end
  end.

Definition findByTextContent (d : Document) : option Candidate :=
  textLinkLoop (querySelectorAll d clickableSelector).

(** [`${element.className} ${element.id}`] *)
Definition classIdOf (e : Element) : str := className e ++ space ++ elementId e.

Fixpoint classElementLoop (pattern : RegExp) (elements : list Element)
  : option Candidate :=
  match elements with
  | [] => None
  | e :: rest =>
    if test pattern (classIdOf e) then
      if isValidNextPageElement (Some e)
      then Some (heuristicCandidate e ClassId 0.8)
      else classElementLoop pattern rest
    else classElementLoop pattern rest
  end.

Fixpoint classPatternLoop (d : Document) (ps : list RegExp) : option Candidate :=
  match ps with
  | [] => None
  | pattern :: rest =>
    let elements := querySelectorAll d clickableSelector in
    match classElementLoop pattern elements with
    | Some c => Some c
    | None => classPatternLoop d rest
    end
  end.

Definition findByClassId (d : Document) : option Candidate :=
  classPatternLoop d classIdPatterns.

Definition ariaLabelText (d : Document) (e : Element) : str :=
  let ariaLabel := orEmpty (getAttribute e "aria-label") in
  let ariaLabelledBy := getAttribute e "aria-labelledby" in
  if truthy ariaLabelledBy then
    let labelElement := getElementById d (orEmpty ariaLabelledBy) in
    ariaLabel ++ space
      ++ match labelElement with Some l => textContent l | None => [] end
  else ariaLabel.

Fixpoint ariaPatternLoop (e : Element) (labelText : str) (ps : list RegExp)
  : option Candidate :=
  match ps with
  | [] => None
  | pattern :: rest =>
    if test pattern labelText then
      if isValidNextPageElement (Some e)
      then Some (heuristicCandidate e AriaLabel 0.85)
      else ariaPatternLoop e labelText rest
    else ariaPatternLoop e labelText rest
  end.

Fixpoint ariaElementLoop (d : Document) (elements : list Element)
  : option Candidate :=
  match elements with
  | [] => None
  | e :: rest =>
    match ariaPatternLoop e (ariaLabelText d e) ariaPatterns with
    | Some c => Some c
    | None => ariaElementLoop d rest
    end
  end.

Definition findByAriaLabel (d : Document) : option Candidate :=
  ariaElementLoop d (querySelectorAll d ariaSelector).

(** The predicate of [links.findIndex(...)]. *)
Definition isCurrentLink (link : Element) : bool :=
  classListContains link "current"
  || classListContains link "active"
  || match getAttribute link "aria-current" with
     | Some v => str_eqb v (js "page")
     | None => false
     end
  || hasAttribute link "disabled".

(** [Array.prototype.findIndex]: the first index, or -1. *)
Fixpoint findIndex (A : Type) (f : A -> bool) (l : list A) : Z :=
  match l with
  | [] => (-1)%Z
  | x :: t =>
    if f x then 0%Z
    else let r := findIndex f t in if (r <? 0)%Z then (-1)%Z else (r + 1)%Z
  end.

(** [/^\d+$/] and [/next|›|→|»/i] *)
Definition digitsRe : RegExp := mkRegExp (Plus Digit) false true true.
Definition nextTokenRe : RegExp := ci (anyOf ["next"; "›"; "→"; "»"]%string).

Definition numberedCandidate (nextLink : Element) : Candidate :=
  mkCandidate (Some nextLink) (hrefProp (props nextLink))
              NumberedPagination 0.95 None None.

(** The body of the loop of [findNumberedPagination] for a container that
    exists; [None] when the iteration falls through to the next selector. *)
Definition numberedInContainer (container : Element) : option Candidate :=
  let links := querySelectorAllIn container linkSelector in
  let currentPageIndex := findIndex isCurrentLink links in
  if ((0 <=? currentPageIndex)
      && (currentPageIndex <? Z.of_nat (List.length links) - 1))%Z
  then
    match nth_error links (Z.to_nat (currentPageIndex + 1)) with
    | Some nextLink =>
      let nextText := getElementText (Some nextLink) in
      if test digitsRe nextText || test nextTokenRe nextText
      then Some (numberedCandidate nextLink)
      else None
    | None => None
    end
  else None.

Fixpoint numberedLoop (d : Document) (sels : list selector) : option Candidate :=
  match sels with
  | [] => None
  | sel :: rest =>
    match querySelector d sel with
    | None => numberedLoop d rest
    | Some container =>
      match numberedInContainer container with
      | Some c => Some c
      | None => numberedLoop d rest
      end
    end
  end.

Definition findNumberedPagination (d : Document) : option Candidate :=
  numberedLoop d paginationSelectors.

Section WithHost.
Context {host : Host}.

Definition loadMoreCandidate (d : Document) (button : Element) : Candidate :=
  let url := getElementUrl (Some button) in
  mkCandidate (Some button) (orElse url (Some (locationHref d)))
              InfiniteScroll 0.7 None (Some true).

Fixpoint phraseLoop (d : Document) (button : Element) (text : str)
         (ps : list str) : option Candidate :=
  match ps with
  | [] => None
  | pattern :: rest =>
    if includes text (toLowerCase pattern)
    then Some (loadMoreCandidate d button)
    else phraseLoop d button text rest
  end.

Fixpoint buttonLoop (d : Document) (buttons : list Element) : option Candidate :=
  match buttons with
  | [] => None
  | button :: rest =>
    let text := toLowerCase (getElementText (Some button)) in
    match phraseLoop d button text infiniteScrollPatterns with
    | Some c => Some c
    | None => buttonLoop d rest
    end
  end.

Definition findInfiniteScrollButton (d : Document) : option Candidate :=
  buttonLoop d (querySelectorAll d buttonSelector).

(** *** findNextPage

    The array of closures, each paired here with the strategy it runs so
    that a run can report which closures it called. *)
Definition methods (d : Document) : list (Strategy * (unit -> option Candidate)) :=
  [ (RelAttribute, fun _ => findByRelAttribute d);
    (TextContent, fun _ => findByTextContent d);
    (ClassId, fun _ => findByClassId d);
    (AriaLabel, fun _ => findByAriaLabel d);
    (NumberedPagination, fun _ => findNumberedPagination d);
    (InfiniteScroll, fun _ => findInfiniteScrollButton d) ].

(** The loop over [methods]: the value returned, and the closures called
    on the way, in the order of the calls. *)
Fixpoint cascade (ms : list (Strategy * (unit -> option Candidate)))
  : option Candidate * list Strategy :=
  match ms with
  | [] => (None, [])
  | (name, method) :: rest =>
    match method tt with
    | Some result => (Some result, [name])
    | None => let '(r, called) := cascade rest in (r, name :: called)
    end
  end.

Definition findNextPage (d : Document) : option Candidate :=
  fst (cascade (methods d)).

Definition calledBy_findNextPage (d : Document) : list Strategy :=
  snd (cascade (methods d)).

(** *** getPaginationInfo *)

Record PaginationInfo := mkPaginationInfo {
  currentPage : Z;
  totalPages : option Z;
  hasNext : bool;
  hasPrevious : bool }.

(** [links.map(l => parseInt(text(l))).filter(n => !isNaN(n))] *)
Definition pageNumbersOf (pageLinks : list Element) : list Z :=
  flat_map (fun link =>
              match parseInt (getElementText (Some link)) with
              | Some n => [n]
              | None => []
              end) pageLinks.

(** [Math.max(...numbers)] on a non-empty array of integers. *)
Definition mathMax (n : Z) (rest : list Z) : Z := fold_left Z.max rest n.

Definition getPaginationInfo (d : Document) : PaginationInfo :=
  let currentPageEl := querySelector d currentSelector in
  let currentPage :=
    match currentPageEl with
    | Some e =>
      match parseInt (getElementText (Some e)) with
      | Some pageNum => pageNum
      | None => 1%Z
      end
    | None => 1%Z
    end in
  let pageLinks := querySelectorAll d pageLinkSelector in
  let pageNumbers := pageNumbersOf pageLinks in
  let totalPages :=
    match pageNumbers with
    | n :: rest => Some (mathMax n rest)
    | [] => None
    end in
  mkPaginationInfo currentPage totalPages
    (match findNextPage d with Some _ => true | None => false end)
    (match querySelector d previousSelector with Some _ => true | None => false end).

End WithHost.

(* ================================================================== *)
(** ** Traversal: navigateToNextPage and waitForNewContent *)
(* ================================================================== *)

(** What the page does in answer to the detector: whether [element.click()]
    or the assignment to [window.location.href] raises, and what the
    interval callbacks of [waitForNewContent] observe.  Index 0 of [clock]
    and [scrollHeight] is the moment [waitForNewContent] is entered; index
    [k >= 1] is the k-th run of the [setInterval] callback that reads a
    height (a run that finds no body raises before it reads anything and
    settles nothing).  [bodyPresent] tells whether [document.body] is
    there when [waitForNewContent] is entered: reading its [scrollHeight]
    raises when it is not. *)
Record World := mkWorld {
  clickThrows : Element -> bool;
  navigationThrows : str -> bool;
  clock : nat -> Z;          (* Date.now() *)
  scrollHeight : nat -> Z;   (* document.body.scrollHeight *)
  bodyPresent : bool         (* document.body is not null on entry *) }.

(** The period passed to [setInterval], in milliseconds. *)
Definition pollInterval : Z := 100.

(** The default value of the [maxWait] parameter. *)
Definition defaultMaxWait : Z := 5000.

(** The callback of [setInterval], run for the k-th time; [fuel] bounds
    the number of runs looked at.  The result is what the promise resolves
    to and the run that resolved it; [None]: still pending after [fuel]
    more runs. *)
Fixpoint pollFrom (w : World) (maxWait startTime initialHeight : Z)
         (fuel k : nat) : option (bool * nat) :=
  match fuel with
  | O => None
  | S fuel' =>
    let currentHeight := scrollHeight w k in
    let elapsed := (clock w k - startTime)%Z in
    if (currentHeight >? initialHeight)%Z then Some (true, k)
    else if (elapsed >=? maxWait)%Z then Some (false, k)
    else pollFrom w maxWait startTime initialHeight fuel' (S k)
  end.

(** The promise [waitForNewContent] returns once it has read the clock and
    the height of the body on entry. *)
Definition waitForNewContent (w : World) (maxWait : Z) (fuel : nat)
  : option (bool * nat) :=
  let startTime := clock w 0 in
  let initialHeight := scrollHeight w 0 in
  pollFrom w maxWait startTime initialHeight fuel 1.

(** **** Effects of [navigateToNextPage] *)

Inductive Event : Type :=
| Clicked (e : Element)              (* element.click() *)
| Navigated (u : str)                (* window.location.href = u *)
| Waited (resolved : bool) (runs : nat)  (* await waitForNewContent() *)
| ConsoleError.                      (* console.error(...) *)

(** How a computation ends: with a value, with an exception, or not
    within the timer runs looked at. *)
Inductive Outcome (A : Type) : Type :=
| Returned (a : A)
| Thrown
| Pending.
Arguments Returned {A} a.
Arguments Thrown {A}.
Arguments Pending {A}.

(** A computation appends to the log of events and ends in an outcome. *)
Definition M (A : Type) : Type := list Event -> Outcome A * list Event.

Definition ret (A : Type) (a : A) : M A := fun log => (Returned a, log).

Definition bind (A B : Type) (m : M A) (f : A -> M B) : M B :=
  fun log =>
    match m log with
    | (Returned a, log') => f a log'
    | (Thrown, log') => (Thrown, log')
    | (Pending, log') => (Pending, log')
    end.

Notation "x <- m ;; k" := (bind m (fun x => k))
  (at level 61, m at next level, right associativity).
Notation "m ;; k" := (bind m (fun _ => k))
  (at level 61, right associativity).

(** [try { body } catch (error) { handler }] *)
Definition tryCatch (A : Type) (body handler : M A) : M A :=
  fun log =>
    match body log with
    | (Thrown, log') => handler log'
    | r => r
    end.

Definition click (w : World) (e : Element) : M unit :=
  fun log =>
    if clickThrows w e then (Thrown, log)
    else (Returned tt, log ++ [Clicked e]).

Definition setLocationHref (w : World) (u : str) : M unit :=
  fun log =>
    if navigationThrows w u then (Thrown, log)
    else (Returned tt, log ++ [Navigated u]).

Definition consoleError : M unit :=
  fun log => (Returned tt, log ++ [ConsoleError]).

(** [await this.waitForNewContent()]: with no body the call raises on
    reading the initial height, and so does the [await]; with a body the
    promise of [waitForNewContent] is awaited. *)
Definition awaitNewContent (w : World) (fuel : nat) : M bool :=
  fun log =>
    if bodyPresent w then
      match waitForNewContent w defaultMaxWait fuel with
      | Some (b, k) => (Returned b, log ++ [Waited b k])
      | None => (Pending, log)
      end
    else (Thrown, log).

Definition isTrue (o : option bool) : bool :=
  match o with Some true => true | _ => false end.

(** [nextPageInfo] is [None] for [null]/[undefined]. *)
Definition navigateToNextPage (w : World) (fuel : nat)
           (nextPageInfo : option Candidate) : M bool :=
  match nextPageInfo with
  | None => ret false
  | Some info =>
    match element info with
    | None => ret false
    | Some el =>
      tryCatch
        (if isTrue (isLoadMore info) then
           click w el ;;
           awaitNewContent w fuel ;;
           ret true
         else if truthy (url info) then
           setLocationHref w (orEmpty (url info)) ;;
           ret true
         else
           (* [if (element)] holds: the element is present *)
           click w el ;;
           awaitNewContent w fuel ;;
           ret true)
        (consoleError ;; ret false)
    end
  end.

(* ================================================================== *)
(** ** Fixtures: small documents and worlds *)
(* ================================================================== *)

(** Lower-casing of Basic Latin and Latin-1 letters; what any host does on
    text of these ranges. *)
Definition lowerLatin1 (c : N) : N :=
  if ((65 <=? c) && (c <=? 90))%N then (c + 32)%N
  else if ((192 <=? c) && (c <=? 222) && negb (c =? 215))%N then (c + 32)%N
  else c.

#[export] Instance latin1Host : Host := {| toLowerCase := map lowerLatin1 |}.

Module Fixture.
Local Open Scope string_scope.

(** A rendered, enabled element of 80 by 20 pixels with no [href]. *)
Definition shown : Props :=
  mkProps None false [] (js "block") (js "visible") (js "1") 80 20.

Definition withHref (u : string) (p : Props) : Props :=
  mkProps (Some (js u)) (disabledProp p) (innerTextProp p) (styleDisplay p)
          (styleVisibility p) (styleOpacity p) (rectWidth p) (rectHeight p).

Definition withVisibility (v : string) (p : Props) : Props :=
  mkProps (hrefProp p) (disabledProp p) (innerTextProp p) (styleDisplay p)
          (js v) (styleOpacity p) (rectWidth p) (rectHeight p).

(** [display:none]: not rendered, an empty box. *)
Definition notDisplayed (p : Props) : Props :=
  mkProps (hrefProp p) (disabledProp p) (innerTextProp p) (js "none")
          (styleVisibility p) (styleOpacity p) 0 0.

Definition node (tag : string) (attrs : list (string * string)) (p : Props)
           (kids : list (str + Element)) : Element :=
  mkElement (js tag) (map (fun kv => (js (fst kv), js (snd kv))) attrs) p kids.

Definition text (s : string) : str + Element := inl (js s).

(** <a href=U ATTRS>LABEL</a> *)
Definition anchor (u : string) (attrs : list (string * string)) (label : string)
  : Element :=
  node "a" (("href", u) :: attrs) (withHref u shown) [text label].

Definition page (content : list Element) : Document :=
  mkDocument
    (node "html" [] shown [inr (node "body" [] shown (map inr content))])
    (js "https://example.test/list?page=1").

(** One anchor that satisfies the rel, text and class/id matchers at
    once, after an anchor that satisfies the text and class/id ones. *)
Definition plainNext : Element :=
  anchor "https://x/other" [("class", "next-link")] "Next page".
Definition relNext : Element :=
  anchor "https://x/2" [("rel", "next"); ("class", "next")] "Next".
Definition docPriority : Document := page [plainNext; relNext].

(** A "load more" button that is not displayed and disabled. *)
Definition hiddenLoadMore : Element :=
  node "button" [("disabled", "")]
       (mkProps None true [] (js "none") (js "visible") (js "1") 0 0)
       [text "Load More"].
Definition docHiddenLoadMore : Document := page [hiddenLoadMore].

(** Pages 1, [2], 3 where the link to page 3 is not displayed. *)
Definition hiddenThree : Element :=
  mkElement (js "a") [(js "href", js "https://x/3")]
            (notDisplayed (withHref "https://x/3" shown)) [text "3"].
Definition docHiddenNumbered : Document :=
  page [ node "div" [("class", "pagination")] shown
           [ inr (anchor "https://x/1" [] "1");
             inr (anchor "https://x/2" [("class", "current")] "2");
             inr hiddenThree ] ].

(** A lone <button>Load More</button>. *)
Definition loadMore : Element := node "button" [] shown [text "Load More"].
Definition docLoadMore : Document := page [loadMore].

(** Links 1 to 5 in a .pagination block, class current on 3. *)
Definition link4 : Element := anchor "https://x/4" [] "4".
Definition docFivePages : Document :=
  page [ node "ul" [("class", "pagination")] shown
           [ inr (anchor "https://x/1" [] "1");
             inr (anchor "https://x/2" [] "2");
             inr (anchor "https://x/3" [("class", "current")] "3");
             inr link4;
             inr (anchor "https://x/5" [] "5") ] ].

(** An empty .pagination block, then a .pager block with pages [1], 2. *)
Definition emptyBlock : Element := node "div" [("class", "pagination")] shown [].
Definition pagerTwo : Element := anchor "https://x/2" [] "2".
Definition docTwoContainers : Document :=
  page [ emptyBlock;
         node "div" [("class", "pager")] shown
           [ inr (anchor "https://x/1" [("class", "active")] "1");
             inr pagerTwo ] ].

(** A rel=next anchor with visibility:hidden, then a visible one. *)
Definition hiddenRel : Element :=
  mkElement (js "a") [(js "rel", js "next"); (js "href", js "https://x/2")]
            (withVisibility "hidden" (withHref "https://x/2" shown)) [text "2"].
Definition shownRel : Element :=
  anchor "https://x/2" [("rel", "next")] "2".
Definition docHiddenRel : Document := page [hiddenRel; shownRel].
Definition docOnlyHiddenRel : Document := page [hiddenRel].

(** The hidden rel=next anchor before a visible link labelled Next. *)
Definition plainTextNext : Element := anchor "https://x/2" [] "Next".
Definition docHiddenRelThenText : Document := page [hiddenRel; plainTextNext].

(** A hidden "Next" link before a visible one. *)
Definition hiddenTextNext : Element :=
  mkElement (js "a") [(js "href", js "https://x/ad")]
            (withVisibility "hidden" (withHref "https://x/ad" shown))
            [text "Next"].
Definition shownTextNext : Element := anchor "https://x/2" [] "Next".
Definition docHiddenText : Document := page [hiddenTextNext; shownTextNext].

(** A .pagination block with links 1, 2, 3 and .current on 2. *)
Definition docThreePages : Document :=
  page [ node "div" [("class", "pagination")] shown
           [ inr (anchor "https://x/1" [] "1");
             inr (anchor "https://x/2" [("class", "current")] "2");
             inr (anchor "https://x/3" [] "3") ] ].

(** A link of class forward before a link of class next. *)
Definition forwardLink : Element :=
  anchor "https://x/f" [("class", "forward")] "A".
Definition nextLink : Element :=
  anchor "https://x/n" [("class", "next")] "B".
Definition docForwardNext : Document := page [forwardLink; nextLink].

(** The same, the link of class next not displayed. *)
Definition hiddenNextLink : Element :=
  mkElement (js "a") [(js "href", js "https://x/n"); (js "class", js "next")]
            (notDisplayed (withHref "https://x/n" shown)) [text "B"].
Definition docForwardHiddenNext : Document := page [forwardLink; hiddenNextLink].

(** A control of a single-page application: a button with a handler that
    names no URL. *)
Definition spaNext : Element :=
  node "button" [("onclick", "router.next()")] shown [text "Next"].
Definition docSpa : Document := page [spaNext].

(** A page whose timer runs on time and whose body never grows. *)
Definition stillWorld : World :=
  mkWorld (fun _ => false) (fun _ => false)
          (fun k => (1000 + pollInterval * Z.of_nat k)%Z) (fun _ => 600%Z)
          true.

(** A page whose body has grown at the second run of the timer. *)
Definition growingWorld : World :=
  mkWorld (fun _ => false) (fun _ => false)
          (fun k => (1000 + pollInterval * Z.of_nat k)%Z)
          (fun k => if (2 <=? k)%nat then 900%Z else 600%Z)
          true.

(** A page on which clicks and navigation raise. *)
Definition brokenWorld : World :=
  mkWorld (fun _ => true) (fun _ => true)
          (fun k => (1000 + pollInterval * Z.of_nat k)%Z) (fun _ => 600%Z)
          true.

(** A page whose document has no body. *)
Definition bodilessWorld : World :=
  mkWorld (fun _ => false) (fun _ => false)
          (fun k => (1000 + pollInterval * Z.of_nat k)%Z) (fun _ => 600%Z)
          false.

(** An anchor with no href, labelled Load more, before the button
    labelled Load More.  The href property of such an anchor is the empty
    string. *)
Definition bareAnchor : Element :=
  mkElement (js "a") []
            (mkProps (Some []) false [] (js "inline") (js "visible") (js "1")
                     80 20)
            [text "Load more"].
Definition docAnchorThenButton : Document := page [bareAnchor; loadMore].

End Fixture.

(* ================================================================== *)
(** ** Vocabulary of the specification *)
(* ================================================================== *)

(** The priority order of the six strategies. *)
Definition strategyOrder : list Strategy :=
  [ RelAttribute; TextContent; ClassId; AriaLabel;
    NumberedPagination; InfiniteScroll ].

(** The criteria the text, class/id and ARIA matchers test an element
    against: one of the patterns of the matcher matches. *)
Definition textCriterion (d : Document) (e : Element) : bool :=
  existsb (fun p => Re.test p (getElementText (Some e))) textPatterns.

Definition classIdCriterion (d : Document) (e : Element) : bool :=
  existsb (fun p => Re.test p (classIdOf e)) classIdPatterns.

Definition ariaCriterion (d : Document) (e : Element) : bool :=
  existsb (fun p => Re.test p (ariaLabelText d e)) ariaPatterns.

(** An element meets a criterion and passes the validity gate. *)
Definition gated (criterion : Element -> bool) (e : Element) : bool :=
  criterion e && isValidNextPageElement (Some e).

(** The elements carrying one of the rel values, in the order the rel
    matcher asks for them. *)
Definition relUniverse (d : Document) : list Element :=
  flat_map (fun relValue => querySelectorAll d (relSelector relValue)) relPatterns.

(** A matcher keeps scanning past rejected elements when it gives a valid
    element meeting the criterion as soon as the elements it scans hold
    one. *)
Definition keepsScanning (matcher : Document -> option Candidate)
           (universe : Document -> list Element)
           (criterion : Document -> Element -> bool) : Prop :=
  forall d e,
    In e (universe d) ->
    criterion d e = true ->
    isValidNextPageElement (Some e) = true ->
    exists c e',
      matcher d = Some c /\ element c = Some e' /\ In e' (universe d)
      /\ criterion d e' = true /\ isValidNextPageElement (Some e') = true.

(** One iteration of the loop of [findNumberedPagination]: the candidate
    found in the container of a selector, if there is one. *)
Definition containerResult (d : Document) (sel : selector) : option Candidate :=
  match querySelector d sel with
  | Some container => numberedInContainer container
  | None => None
  end.

(** The text of a link is a pure integer: one or more decimal digits. *)
Definition isPureInteger (s : str) : bool :=
  match s with [] => false | _ => forallb isDigit s end.

(** The container of the first selector of the list that matches anything
    in the document. *)
Fixpoint firstExistingContainer (d : Document) (sels : list selector)
  : option Element :=
  match sels with
  | [] => None
  | sel :: rest =>
    match querySelector d sel with
    | Some container => Some container
    | None => firstExistingContainer d rest
    end
  end.

(** The numbered-pagination matcher as the specification words it: only
    the first container that exists is examined. *)
Definition numberedFirstContainerOnly (d : Document) : option Candidate :=
  match firstExistingContainer d paginationSelectors with
  | Some container => numberedInContainer container
  | None => None
  end.

(** The elements the infinite-scroll matcher scans as the specification
    words them: buttons, anchors (with or without an href) and role=button
    elements. *)
Definition wordedButtonSelector : selector :=
  [ [[STag "button"]]; [[STag "a"]]; [[SAttrEq "role" (js "button")]] ].

(** The test the infinite-scroll matcher applies to a scanned element. *)
Definition hasLoadMorePhrase {host : Host} (e : Element) : bool :=
  existsb (fun p => includes (toLowerCase (getElementText (Some e)))
                             (toLowerCase p))
          infiniteScrollPatterns.

(** The k-th run of the callback of [waitForNewContent] resolves the
    promise: the body has grown or the time is up. *)
Definition resolvesAt (w : World) (maxWait startTime initialHeight : Z)
           (k : nat) : Prop :=
  (scrollHeight w k > initialHeight)%Z
  \/ (clock w k - startTime >= maxWait)%Z.

(** The k-th run of the callback leaves the promise pending. *)
Definition pendingAt (w : World) (maxWait startTime initialHeight : Z)
           (k : nat) : Prop :=
  (scrollHeight w k <= initialHeight)%Z
  /\ (clock w k - startTime < maxWait)%Z.

(** The interval timer runs on time: its k-th callback reads a clock that
    is k periods after the start. *)
Definition onSchedule (w : World) : Prop :=
  forall k, clock w k = (clock w 0 + pollInterval * Z.of_nat k)%Z.

(** The body never grows beyond its initial height. *)
Definition neverGrows (w : World) : Prop :=
  forall k, (scrollHeight w k <= scrollHeight w 0)%Z.

(** *** Vocabulary of the further properties *)

(** The strings a regular expression matches in full: the meaning of the
    patterns, against which [Re.test] is justified below. *)
Inductive lang (ic : bool) : Re.regex -> str -> Prop :=
| L_Eps : lang ic Re.Eps []
| L_Chr p x : Re.chrMatches ic p x = true -> lang ic (Re.Chr p) [x]
| L_Dot x : isLineTerminator x = false -> lang ic Re.Dot [x]
| L_Space x : isWhiteSpace x = true -> lang ic Re.Space [x]
| L_Digit x : isDigit x = true -> lang ic Re.Digit [x]
| L_Cat a b s t : lang ic a s -> lang ic b t -> lang ic (Re.Cat a b) (s ++ t)
| L_AltL a b s : lang ic a s -> lang ic (Re.Alt a b) s
| L_AltR a b s : lang ic b s -> lang ic (Re.Alt a b) s
| L_Star0 a : lang ic (Re.Star a) []
| L_StarS a s t :
    lang ic a s -> lang ic (Re.Star a) t -> lang ic (Re.Star a) (s ++ t).

(** [s] holds the word [w] as a substring, letter case ignored when [ic]. *)
Definition containsWord (ic : bool) (w s : str) : Prop :=
  exists a m b,
    s = a ++ m ++ b
    /\ Forall2 (fun p x => Re.chrMatches ic p x = true) w m.

(** The words of [textPatterns], each with the [i] flag of its pattern. *)
Definition textWords : list (bool * string) :=
  [ (true, "next"); (true, "siguiente"); (true, "suivant"); (true, "weiter");
    (true, "次へ"); (true, "次のページ"); (true, "다음");
    (true, "下一页"); (true, "下一頁"); (true, "próxima"); (true, "volgende");
    (true, "nästa"); (true, "følgende");
    (false, "→"); (false, "›"); (false, "»"); (false, "⟩");
    (false, "⇨"); (false, "➔"); (false, "➜"); (false, "➡") ]%string.

(** [classIdPatterns] without [/pagination.*next/i] and [/nav.*next/i]. *)
Definition decidingClassIdPatterns : list Re.RegExp :=
  [ Re.ci (Re.word "next");
    Re.ci (Re.word "forward");
    Re.ci (Re.Cat (Re.word "arrow") (Re.Cat (Re.Star Re.Dot) (Re.word "right")));
    Re.ci (Re.Cat (Re.word "chevron") (Re.Cat (Re.Star Re.Dot) (Re.word "right"))) ].

(** [/next/i] *)
Definition nextRe : Re.RegExp := Re.ci (Re.word "next").

(** The first truthy value of a list of strings-or-null, else null. *)
Fixpoint firstTruthy (l : list (option str)) : option str :=
  match l with
  | [] => None
  | o :: rest => if truthy o then o else firstTruthy rest
  end.

(** The URL literal assigned to the location in the onclick handler of an
    element, if the handler is there and holds one. *)
Definition onclickLiteral (e : Element) : option str :=
  if truthy (getAttribute e "onclick")
  then Re.locationAssign (orEmpty (getAttribute e "onclick"))
  else None.

(** The text, class/id or aria-label matcher returns [c] on [d]. *)
Definition heuristicMatch (d : Document) (c : Candidate) : Prop :=
  findByTextContent d = Some c
  \/ findByClassId d = Some c
  \/ findByAriaLabel d = Some c.

(** What [navigateToNextPage] does when it clicks: the click, the wait,
    then true; false with the error logged when the click raises, and
    also, the click done, when the wait raises for want of a body. *)
Definition clickOutcome (w : World) (fuel : nat) (el : Element)
           (log : list Event) : Outcome bool * list Event :=
  if clickThrows w el then (Returned false, log ++ [ConsoleError])
  else if bodyPresent w then
    match waitForNewContent w defaultMaxWait fuel with
    | Some (b, j) => (Returned true, log ++ [Clicked el; Waited b j])
    | None => (Pending, log ++ [Clicked el])
    end
  else (Returned false, log ++ [Clicked el; ConsoleError]).

(** What it does when it navigates: the assignment, then true; false with
    the error logged when the assignment raises. *)
Definition navigationOutcome (w : World) (u : str) (log : list Event)
  : Outcome bool * list Event :=
  if navigationThrows w u then (Returned false, log ++ [ConsoleError])
  else (Returned true, log ++ [Navigated u]).

(** A string is empty or neither starts nor ends with white space. *)
Definition isTrimmed (t : str) : Prop :=
  t = []
  \/ ((exists c r, t = c :: r /\ isWhiteSpace c = false)
      /\ (exists r c, t = r ++ [c] /\ isWhiteSpace c = false)).

(** All elements of the document, in document order. *)
Definition allElements (d : Document) : list Element :=
  map snd (walk [] (documentElement d)).

(** The element carries one of the markers [detectInfiniteScroll] looks
    for. *)
Definition hasScrollMarker (e : Element) : bool :=
  hasAttribute e "data-infinite-scroll"
  || classListContains e "infinite-scroll"
  || hasAttribute e "data-auto-pager".

(** The links of a pagination container hold no current link. *)
Definition noCurrentLink (k : Element) : Prop :=
  forall x, In x (querySelectorAllIn k linkSelector) -> isCurrentLink x = false.

(** The first current link of a pagination container is its last link. *)
Definition currentLinkIsLast (k : Element) : Prop :=
  exists before cur,
    querySelectorAllIn k linkSelector = before ++ [cur]
    /\ (forall x, In x before -> isCurrentLink x = false)
    /\ isCurrentLink cur = true.

Module MoreFixtures.
Import Fixture.
Local Open Scope string_scope.

(** The last page of three: links 1, 2, [3]. *)
Definition lastOne : Element := anchor "https://x/1" [] "1".
Definition lastTwo : Element := anchor "https://x/2" [] "2".
Definition lastThree : Element :=
  anchor "https://x/3" [("class", "current")] "3".
Definition lastPageBlock : Element :=
  node "div" [("class", "pagination")] shown
       [ inr lastOne; inr lastTwo; inr lastThree ].
Definition docLastPage : Document := page [lastPageBlock].

(** The current page link of [docThreePages]. *)
Definition currentTwo : Element :=
  anchor "https://x/2" [("class", "current")] "2".

End MoreFixtures.
Import MoreFixtures.

(** The confidence of each strategy. *)
Definition confidenceOf (s : Strategy) : Q :=
  match s with
  | RelAttribute => 1.0
  | TextContent => 0.9
  | ClassId => 0.8
  | AriaLabel => 0.85
  | NumberedPagination => 0.95
  | InfiniteScroll => 0.7
  end.

(** The place of a strategy in the cascade. *)
Definition rank (s : Strategy) : nat :=
  match s with
  | RelAttribute => 0
  | TextContent => 1
  | ClassId => 2
  | AriaLabel => 3
  | NumberedPagination => 4
  | InfiniteScroll => 5
  end.

(** The matcher of a strategy. *)
Definition matcherOf {host : Host} (s : Strategy) : Document -> option Candidate :=
  match s with
  | RelAttribute => findByRelAttribute
  | TextContent => findByTextContent
  | ClassId => findByClassId
  | AriaLabel => findByAriaLabel
  | NumberedPagination => findNumberedPagination
  | InfiniteScroll => findInfiniteScrollButton
  end.

(** The height of the tree below an element. *)
Fixpoint depth (e : Element) : nat :=
  S (fold_right (fun n m => Nat.max match n with
                                    | inl _ => O
                                    | inr c => depth c
                                    end m)
                O (childNodes e)).

(** A matcher accounts for a candidate: the element it holds is in the
    document, and so are its type, confidence and load-more flag fixed. *)
Definition accountedFor (d : Document) (s : Strategy) (c : Candidate) : Prop :=
  exists e,
    element c = Some e /\ In e (allElements d)
    /\ type c = s /\ confidence c = confidenceOf s
    /\ isLoadMore c = (match s with InfiniteScroll => Some true | _ => None end).

(** The rel-attribute or the numbered-pagination matcher returns [c]. *)
Definition linkMatch (d : Document) (c : Candidate) : Prop :=
  findByRelAttribute d = Some c \/ findNumberedPagination d = Some c.

(** The ways a call of [navigateToNextPage] can end, by what it added to
    the log of effects. *)
Inductive NavigationEnd (log : list Event)
  : Outcome bool * list Event -> Prop :=
| EndGuard : NavigationEnd log (Returned false, log)
| EndError : NavigationEnd log (Returned false, log ++ [ConsoleError])
| EndWaitError e :
    NavigationEnd log (Returned false, log ++ [Clicked e; ConsoleError])
| EndNavigated u : NavigationEnd log (Returned true, log ++ [Navigated u])
| EndClicked e b j :
    NavigationEnd log (Returned true, log ++ [Clicked e; Waited b j])
| EndWaiting e : NavigationEnd log (Pending, log ++ [Clicked e]).

(* ================================================================== *)
(** ** Properties *)
(* ================================================================== *)

Import Fixture.

(** The loops are reasoned about through their equations; their leaves stay
    folded. *)
Arguments isValidNextPageElement el : simpl never.
Arguments getElementText el : simpl never.
Arguments getElementUrl el : simpl never.
Arguments heuristicCandidate e ty conf : simpl never.
Arguments Re.test re s : simpl never.
Arguments querySelectorAll d sel : simpl never.
Arguments querySelector d sel : simpl never.

(** *** The cascade *)

Section Cascade.
Context {host : Host}.

Lemma cascade_first_success (ms : list (Strategy * (unit -> option Candidate))) :
  match fst (cascade ms) with
  | Some r =>
    exists pre name method post,
      ms = pre ++ (name, method) :: post
      /\ Forall (fun m => snd m tt = None) pre
      /\ method tt = Some r
      /\ snd (cascade ms) = map fst pre ++ [name]
  | None =>
    Forall (fun m => snd m tt = None) ms /\ snd (cascade ms) = map fst ms
  end.
Proof.
  induction ms as [|[name method] rest IH]; simpl.
  - split; [constructor | reflexivity].
  - destruct (method tt) as [r|] eqn:Hm; simpl.
    + exists [], name, method, rest. repeat split; auto.
    + destruct (cascade rest) as [r called] eqn:Hc. simpl in *.
      destruct r as [r|].
      * destruct IH as (pre & n & m & post & -> & Hpre & Hr & Hcalled).
        exists ((name, method) :: pre), n, m, post.
        repeat split; auto.
        simpl. now rewrite Hcalled.
      * destruct IH as [Hall Hcalled]. split.
        -- constructor; auto.
        -- now rewrite Hcalled.
Qed.

Lemma findNextPage_unfold (d : Document) :
  findNextPage d =
  match findByRelAttribute d with
  | Some c => Some c
  | None =>
    match findByTextContent d with
    | Some c => Some c
    | None =>
      match findByClassId d with
      | Some c => Some c
      | None =>
        match findByAriaLabel d with
        | Some c => Some c
        | None =>
          match findNumberedPagination d with
          | Some c => Some c
          | None => findInfiniteScrollButton d
          end
        end
      end
    end
  end.
Proof.
  unfold findNextPage, methods. simpl.
  destruct (findByRelAttribute d); [reflexivity|].
  destruct (findByTextContent d); [reflexivity|].
  destruct (findByClassId d); [reflexivity|].
  destruct (findByAriaLabel d); [reflexivity|].
  destruct (findNumberedPagination d); [reflexivity|].
  destruct (findInfiniteScrollButton d); reflexivity.
Qed.

(** C1.  [findNextPage] holds the six matchers in the order rel-attribute,
    text-content, class-id, aria-label, numbered-pagination,
    infinite-scroll; it returns the result of the first matcher that does
    not return null, having called the matchers before it (all null) and
    none after it; it calls all six when it returns null.  Whenever the
    rel-attribute matcher succeeds its candidate is the result and no other
    matcher is called, as on a document where the text and class/id
    matchers would succeed too. *)
Theorem C1_findNextPage_first_success_in_order (d : Document) :
  map fst (methods d) = strategyOrder
  /\ map (fun m => snd m tt) (methods d)
     = [ findByRelAttribute d; findByTextContent d; findByClassId d;
         findByAriaLabel d; findNumberedPagination d;
         findInfiniteScrollButton d ]
  /\ match findNextPage d with
     | Some r =>
       exists pre name method post,
         methods d = pre ++ (name, method) :: post
         /\ Forall (fun m => snd m tt = None) pre
         /\ method tt = Some r
         /\ calledBy_findNextPage d = map fst pre ++ [name]
     | None =>
       Forall (fun m => snd m tt = None) (methods d)
       /\ calledBy_findNextPage d = strategyOrder
     end
  /\ (forall c, findByRelAttribute d = Some c ->
        findNextPage d = Some c /\ calledBy_findNextPage d = [RelAttribute])
  /\ (findByRelAttribute docPriority = Some (relCandidate relNext)
      /\ findByTextContent docPriority
         = Some (heuristicCandidate plainNext TextContent 0.9)
      /\ findByClassId docPriority
         = Some (heuristicCandidate plainNext ClassId 0.8)
      /\ findNextPage docPriority = Some (relCandidate relNext)).
Proof.
  split; [reflexivity|]. split; [reflexivity|]. split.
  - unfold findNextPage, calledBy_findNextPage.
    pose proof (cascade_first_success (methods d)) as H.
    destruct (fst (cascade (methods d))); exact H.
  - split.
    + intros c Hc. unfold findNextPage, calledBy_findNextPage, methods.
      simpl. rewrite Hc. split; reflexivity.
    + repeat split; vm_compute; reflexivity.
Qed.

End Cascade.

(** *** The validity gate and the scanning loops *)

Lemma textPatternLoop_eq (link : Element) (text : str) (ps : list Re.RegExp) :
  textPatternLoop link text ps =
  if existsb (fun p => Re.test p text) ps && isValidNextPageElement (Some link)
  then Some (heuristicCandidate link TextContent 0.9) else None.
Proof.
  induction ps as [|p rest IH]; simpl; [reflexivity|].
  destruct (Re.test p text); simpl; [|exact IH].
  rewrite IH.
  destruct (isValidNextPageElement (Some link)); [reflexivity|].
  now rewrite andb_false_r.
Qed.

Lemma ariaPatternLoop_eq (e : Element) (label : str) (ps : list Re.RegExp) :
  ariaPatternLoop e label ps =
  if existsb (fun p => Re.test p label) ps && isValidNextPageElement (Some e)
  then Some (heuristicCandidate e AriaLabel 0.85) else None.
Proof.
  induction ps as [|p rest IH]; simpl; [reflexivity|].
  destruct (Re.test p label); simpl; [|exact IH].
  rewrite IH.
  destruct (isValidNextPageElement (Some e)); [reflexivity|].
  now rewrite andb_false_r.
Qed.

Lemma textLinkLoop_eq (d : Document) (links : list Element) :
  textLinkLoop links =
  option_map (fun l => heuristicCandidate l TextContent 0.9)
             (find (gated (textCriterion d)) links).
Proof.
  induction links as [|l rest IH]; cbn [textLinkLoop find]; [reflexivity|].
  rewrite textPatternLoop_eq. unfold gated at 1, textCriterion at 1.
  destruct (existsb _ textPatterns && isValidNextPageElement (Some l));
    [reflexivity | exact IH].
Qed.

Lemma ariaElementLoop_eq (d : Document) (elements : list Element) :
  ariaElementLoop d elements =
  option_map (fun e => heuristicCandidate e AriaLabel 0.85)
             (find (gated (ariaCriterion d)) elements).
Proof.
  induction elements as [|e rest IH]; cbn [ariaElementLoop find]; [reflexivity|].
  rewrite ariaPatternLoop_eq. unfold gated at 1, ariaCriterion at 1.
  destruct (existsb _ ariaPatterns && isValidNextPageElement (Some e));
    [reflexivity | exact IH].
Qed.

Lemma classElementLoop_eq (p : Re.RegExp) (elements : list Element) :
  classElementLoop p elements =
  option_map (fun e => heuristicCandidate e ClassId 0.8)
             (find (gated (fun e => Re.test p (classIdOf e))) elements).
Proof.
  induction elements as [|e rest IH]; simpl; [reflexivity|].
  unfold gated at 1.
  destruct (Re.test p (classIdOf e)); simpl; [|exact IH].
  destruct (isValidNextPageElement (Some e)); [reflexivity | exact IH].
Qed.

(** [find] on a list cut at its first hit. *)
Lemma find_first (A : Type) (f : A -> bool) (before : list A) (x : A) (after : list A) :
  (forall y, In y before -> f y = false) ->
  f x = true ->
  find f (before ++ x :: after) = Some x.
Proof.
  intros Hb Hx. induction before as [|y before IH]; simpl.
  - now rewrite Hx.
  - rewrite (Hb y (or_introl eq_refl)). apply IH.
    intros z Hz. apply Hb. now right.
Qed.

Lemma find_split (A : Type) (f : A -> bool) (l : list A) (x : A) :
  find f l = Some x ->
  exists before after,
    l = before ++ x :: after
    /\ (forall y, In y before -> f y = false) /\ f x = true.
Proof.
  induction l as [|y l IH]; simpl; [discriminate|].
  destruct (f y) eqn:Hy.
  - intros [= ->]. exists [], l. repeat split; auto. intros ? [].
  - intros H. destruct (IH H) as (b & a & -> & Hb & Hx).
    exists (y :: b), a. repeat split; auto.
    intros z [<-|Hz]; auto.
Qed.

Lemma find_hit (A : Type) (f : A -> bool) (l : list A) (x : A) :
  In x l -> f x = true -> exists y, find f l = Some y.
Proof.
  intros Hin Hx. destruct (find f l) as [y|] eqn:Hf; [now exists y|].
  rewrite (find_none f l Hf x Hin) in Hx. discriminate.
Qed.

(** The class/id matcher run over a list of patterns. *)
Lemma classPatternLoop_first (d : Document) (pre : list Re.RegExp)
      (p : Re.RegExp) (post : list Re.RegExp) (c : Candidate) :
  (forall q, In q pre ->
     classElementLoop q (querySelectorAll d clickableSelector) = None) ->
  classElementLoop p (querySelectorAll d clickableSelector) = Some c ->
  classPatternLoop d (pre ++ p :: post) = Some c.
Proof.
  intros Hpre Hp. induction pre as [|q pre IH]; simpl.
  - now rewrite Hp.
  - rewrite (Hpre q (or_introl eq_refl)). apply IH.
    intros r Hr. apply Hpre. now right.
Qed.

Lemma classPatternLoop_some (d : Document) (ps : list Re.RegExp) (c : Candidate) :
  classPatternLoop d ps = Some c ->
  exists p e,
    In p ps /\ In e (querySelectorAll d clickableSelector)
    /\ Re.test p (classIdOf e) = true
    /\ isValidNextPageElement (Some e) = true
    /\ c = heuristicCandidate e ClassId 0.8.
Proof.
  induction ps as [|p rest IH]; simpl; [discriminate|].
  destruct (classElementLoop p _) as [c'|] eqn:Hp.
  - intros [= <-]. rewrite classElementLoop_eq in Hp.
    destruct (find _ _) as [e|] eqn:Hf; [|discriminate].
    injection Hp as <-. apply find_some in Hf. destruct Hf as [Hin Hg].
    unfold gated in Hg. apply andb_prop in Hg. destruct Hg as [Ht Hv].
    exists p, e. repeat split; auto.
  - intros H. destruct (IH H) as (q & e & Hq & He).
    exists q, e. split; [now right | exact He].
Qed.

Lemma classPatternLoop_hit (d : Document) (ps : list Re.RegExp)
      (p : Re.RegExp) (e : Element) :
  In p ps -> In e (querySelectorAll d clickableSelector) ->
  Re.test p (classIdOf e) = true ->
  isValidNextPageElement (Some e) = true ->
  exists c, classPatternLoop d ps = Some c.
Proof.
  intros Hp He Ht Hv. induction ps as [|q rest IH]; simpl; [destruct Hp|].
  destruct (classElementLoop q _) as [c'|] eqn:Hq; [now exists c'|].
  destruct Hp as [->|Hp]; [|now apply IH].
  rewrite classElementLoop_eq in Hq.
  destruct (find_hit (gated (fun e => Re.test p (classIdOf e))) _ e He) as [y Hy].
  - unfold gated. now rewrite Ht, Hv.
  - rewrite Hy in Hq. discriminate.
Qed.

Lemma existsb_of_In (A : Type) (f : A -> bool) (l : list A) (x : A) :
  In x l -> f x = true -> existsb f l = true.
Proof. intros. apply existsb_exists. now exists x. Qed.

(** Candidates of the four gated matchers carry a valid element. *)
Lemma relLoop_valid (d : Document) (rels : list str) (c : Candidate) :
  relLoop d rels = Some c -> isValidNextPageElement (element c) = true.
Proof.
  induction rels as [|r rest IH]; simpl; [discriminate|].
  destruct (querySelector d (relSelector r)) as [l|]; [|exact IH].
  destruct (isValidNextPageElement (Some l)) eqn:Hv; [|exact IH].
  intros [= <-]. exact Hv.
Qed.

Lemma findByTextContent_valid (d : Document) (c : Candidate) :
  findByTextContent d = Some c -> isValidNextPageElement (element c) = true.
Proof.
  unfold findByTextContent. rewrite (textLinkLoop_eq d).
  destruct (find _ _) as [l|] eqn:Hf; [|discriminate].
  intros [= <-]. apply find_some in Hf. destruct Hf as [_ Hg].
  unfold gated in Hg. now apply andb_prop in Hg.
Qed.

Lemma findByClassId_valid (d : Document) (c : Candidate) :
  findByClassId d = Some c -> isValidNextPageElement (element c) = true.
Proof.
  intros H. apply classPatternLoop_some in H.
  destruct H as (p & e & _ & _ & _ & Hv & ->). exact Hv.
Qed.

Lemma findByAriaLabel_valid (d : Document) (c : Candidate) :
  findByAriaLabel d = Some c -> isValidNextPageElement (element c) = true.
Proof.
  unfold findByAriaLabel. rewrite ariaElementLoop_eq.
  destruct (find _ _) as [l|] eqn:Hf; [|discriminate].
  intros [= <-]. apply find_some in Hf. destruct Hf as [_ Hg].
  unfold gated in Hg. now apply andb_prop in Hg.
Qed.

(** C2.  The rel-attribute, text-content, class-id and aria-label matchers
    return only elements that pass [isValidNextPageElement]; the
    numbered-pagination and infinite-scroll matchers never call it, and
    [findNextPage] returns an element that fails it on a page whose only
    load-more button is not displayed and disabled, and on a page whose
    link after the current page is not displayed. *)
Theorem C2_numbered_and_infinite_scroll_skip_the_gate :
  (forall d c, findByRelAttribute d = Some c ->
     isValidNextPageElement (element c) = true)
  /\ (forall d c, findByTextContent d = Some c ->
        isValidNextPageElement (element c) = true)
  /\ (forall d c, findByClassId d = Some c ->
        isValidNextPageElement (element c) = true)
  /\ (forall d c, findByAriaLabel d = Some c ->
        isValidNextPageElement (element c) = true)
  /\ (exists c, findNextPage docHiddenLoadMore = Some c
        /\ type c = InfiniteScroll
        /\ element c = Some hiddenLoadMore
        /\ isValidNextPageElement (element c) = false)
  /\ (exists c, findNextPage docHiddenNumbered = Some c
        /\ type c = NumberedPagination
        /\ element c = Some hiddenThree
        /\ isValidNextPageElement (element c) = false).
Proof.
  split; [intros d c; apply relLoop_valid|].
  split; [exact findByTextContent_valid|].
  split; [exact findByClassId_valid|].
  split; [exact findByAriaLabel_valid|].
  split.
  - exists (loadMoreCandidate docHiddenLoadMore hiddenLoadMore).
    repeat split; vm_compute; reflexivity.
  - exists (numberedCandidate hiddenThree).
    repeat split; vm_compute; reflexivity.
Qed.

(** *** Scanning past rejected elements *)

Lemma keepsScanning_text :
  keepsScanning findByTextContent
                (fun d => querySelectorAll d clickableSelector) textCriterion.
Proof.
  intros d e Hin Hc Hv. unfold findByTextContent. rewrite (textLinkLoop_eq d).
  destruct (find_hit (gated (textCriterion d)) _ e Hin) as [y Hy].
  - unfold gated. now rewrite Hc, Hv.
  - rewrite Hy. apply find_some in Hy. destruct Hy as [Hiny Hg].
    unfold gated in Hg. apply andb_prop in Hg. destruct Hg.
    exists (heuristicCandidate y TextContent 0.9), y. repeat split; auto.
Qed.

Lemma keepsScanning_aria :
  keepsScanning findByAriaLabel
                (fun d => querySelectorAll d ariaSelector) ariaCriterion.
Proof.
  intros d e Hin Hc Hv. unfold findByAriaLabel. rewrite ariaElementLoop_eq.
  destruct (find_hit (gated (ariaCriterion d)) _ e Hin) as [y Hy].
  - unfold gated. now rewrite Hc, Hv.
  - rewrite Hy. apply find_some in Hy. destruct Hy as [Hiny Hg].
    unfold gated in Hg. apply andb_prop in Hg. destruct Hg.
    exists (heuristicCandidate y AriaLabel 0.85), y. repeat split; auto.
Qed.

Lemma keepsScanning_classId :
  keepsScanning findByClassId
                (fun d => querySelectorAll d clickableSelector) classIdCriterion.
Proof.
  intros d e Hin Hc Hv. unfold classIdCriterion in Hc.
  apply existsb_exists in Hc. destruct Hc as (p & Hp & Ht).
  destruct (classPatternLoop_hit d classIdPatterns p e Hp Hin Ht Hv) as [c Hc].
  pose proof (classPatternLoop_some d _ Hc) as (q & e' & Hq & He' & Hq' & Hv' & ->).
  exists (heuristicCandidate e' ClassId 0.8), e'.
  repeat split; auto.
  unfold classIdCriterion. now apply existsb_of_In with q.
Qed.

Lemma hidden_is_invalid (e : Element) :
  styleVisibility (props e) = js "hidden" ->
  isValidNextPageElement (Some e) = false.
Proof.
  intros H. unfold isValidNextPageElement. rewrite H.
  replace (str_eqb (js "hidden") (js "hidden")) with true by reflexivity.
  now rewrite orb_true_r.
Qed.

(** C7 (as amended).  The text-content, class-id and aria-label matchers
    keep scanning past an element that meets their criterion and fails the
    validity gate: whenever the elements they scan hold a valid element
    meeting the criterion, they return such an element, the text matcher
    the first one in document order.  The rel-attribute matcher asks
    [querySelector] for one element per rel value and, when that element
    fails the gate, goes on to the next rel value.  An anchor with
    rel=next and visibility:hidden fails the gate and is never the
    rel-attribute candidate; when the rel-attribute matcher returns null,
    [findNextPage] is the cascade of the five remaining matchers, which
    may find a candidate or none. *)
Theorem C7_gated_scanners_skip_rejected_elements :
  keepsScanning findByTextContent
                (fun d => querySelectorAll d clickableSelector) textCriterion
  /\ keepsScanning findByClassId
                   (fun d => querySelectorAll d clickableSelector) classIdCriterion
  /\ keepsScanning findByAriaLabel
                   (fun d => querySelectorAll d ariaSelector) ariaCriterion
  /\ (forall d before e after,
        querySelectorAll d clickableSelector = before ++ e :: after ->
        (forall x, In x before -> gated (textCriterion d) x = false) ->
        gated (textCriterion d) e = true ->
        findByTextContent d = Some (heuristicCandidate e TextContent 0.9))
  /\ (forall d,
        let attempt (relValue : string) (otherwise : option Candidate) :=
          match hd_error (querySelectorAll d (relSelector (js relValue))) with
          | Some l =>
            if isValidNextPageElement (Some l) then Some (relCandidate l)
            else otherwise
          | None => otherwise
          end in
        findByRelAttribute d
        = attempt "next"%string (attempt "nofollow next"%string None))
  /\ (forall e, styleVisibility (props e) = js "hidden" ->
        isValidNextPageElement (Some e) = false)
  /\ (forall d a c,
        isValidNextPageElement (Some a) = false ->
        findByRelAttribute d = Some c -> element c <> Some a)
  /\ (forall (host : Host) d,
        findByRelAttribute d = None ->
        findNextPage d = fst (cascade (tl (methods d))))
  /\ findNextPage docOnlyHiddenRel = None
  /\ findNextPage docHiddenRelThenText
     = Some (heuristicCandidate plainTextNext TextContent 0.9)
  /\ findNextPage docHiddenText
     = Some (heuristicCandidate shownTextNext TextContent 0.9).
Proof.
  split; [exact keepsScanning_text|].
  split; [exact keepsScanning_classId|].
  split; [exact keepsScanning_aria|].
  split.
  { intros d before e after Hq Hb He. unfold findByTextContent.
    rewrite (textLinkLoop_eq d), Hq, (find_first _ _ _ _ Hb He). reflexivity. }
  split; [intros d; reflexivity|].
  split; [exact hidden_is_invalid|].
  split.
  { intros d a c Ha Hc Heq. apply relLoop_valid in Hc.
    rewrite Heq, Ha in Hc. discriminate. }
  split.
  { intros host d H. unfold findNextPage, methods.
    cbn [tl]. change (cascade ((RelAttribute, fun _ => findByRelAttribute d)
                               :: ?rest))
      with (match findByRelAttribute d with
            | Some result => (Some result, [RelAttribute])
            | None => let '(r, called) := cascade rest in
                      (r, RelAttribute :: called)
            end).
    rewrite H.
    match goal with |- context [cascade ?l] => destruct (cascade l) end.
    reflexivity. }
  repeat split; vm_compute; reflexivity.
Qed.

(** C7, as stated, fails for the rel-attribute matcher: a hidden rel=next
    anchor followed by a visible one makes it return null, and so does
    [findNextPage]. *)
Lemma C7_rel_matcher_stops_at_the_first_anchor :
  querySelectorAll docHiddenRel (relSelector (js "next")) = [hiddenRel; shownRel]
  /\ isValidNextPageElement (Some hiddenRel) = false
  /\ isValidNextPageElement (Some shownRel) = true
  /\ findByRelAttribute docHiddenRel = None
  /\ findNextPage docHiddenRel = None
  /\ ~ keepsScanning findByRelAttribute relUniverse (fun _ _ => true).
Proof.
  assert (Hq : querySelectorAll docHiddenRel (relSelector (js "next"))
               = [hiddenRel; shownRel]) by (vm_compute; reflexivity).
  assert (Hv : isValidNextPageElement (Some shownRel) = true)
    by (vm_compute; reflexivity).
  assert (Hn : findByRelAttribute docHiddenRel = None)
    by (vm_compute; reflexivity).
  repeat split; auto; try (vm_compute; reflexivity).
  intros K. destruct (K docHiddenRel shownRel) as (c & e' & Hc & _); auto.
  - unfold relUniverse, relPatterns. cbn [flat_map]. rewrite Hq.
    right. left. reflexivity.
  - rewrite Hn in Hc. discriminate.
Qed.

(** *** Pattern priority of the class/id matcher *)

(** C10 (as amended).  [findByClassId] goes through the class/id patterns
    in their order and, for each, through the clickable elements in
    document order; its candidate is the first element that matches the
    pattern at hand and passes the validity gate.  So when no valid element
    matches an earlier pattern, the first valid element matching pattern
    [p] is the candidate, whatever elements before it match later
    patterns. *)
Theorem C10_class_id_goes_by_pattern_then_document_order
        (d : Document) (pre : list Re.RegExp) (p : Re.RegExp)
        (post : list Re.RegExp) (before : list Element) (e : Element)
        (after : list Element) :
  classIdPatterns = pre ++ p :: post ->
  querySelectorAll d clickableSelector = before ++ e :: after ->
  (forall q x, In q pre -> In x (querySelectorAll d clickableSelector) ->
     gated (fun y => Re.test q (classIdOf y)) x = false) ->
  (forall x, In x before -> gated (fun y => Re.test p (classIdOf y)) x = false) ->
  Re.test p (classIdOf e) = true ->
  isValidNextPageElement (Some e) = true ->
  findByClassId d = Some (heuristicCandidate e ClassId 0.8).
Proof.
  intros Hps Hq Hpre Hbefore Ht Hv. unfold findByClassId. rewrite Hps.
  apply classPatternLoop_first.
  - intros q Hin. rewrite classElementLoop_eq.
    destruct (find _ _) as [x|] eqn:Hf; [|reflexivity].
    apply find_some in Hf. destruct Hf as [Hx Hg].
    rewrite (Hpre q x Hin Hx) in Hg. discriminate.
  - rewrite classElementLoop_eq, Hq, (find_first _ _ _ _ Hbefore).
    + reflexivity.
    + unfold gated. now rewrite Ht, Hv.
Qed.

(** On a page with a valid link of class forward before a valid link of
    class next, the link of class next is the candidate. *)
Lemma C10_witness_forward_then_next :
  querySelectorAll docForwardNext clickableSelector = [forwardLink; nextLink]
  /\ Re.test (Re.ci (Re.word "forward")) (classIdOf forwardLink) = true
  /\ isValidNextPageElement (Some forwardLink) = true
  /\ findByClassId docForwardNext = Some (heuristicCandidate nextLink ClassId 0.8).
Proof.
  split; [vm_compute; reflexivity|].
  split; [vm_compute; reflexivity|].
  split; [vm_compute; reflexivity|].
  apply (@C10_class_id_goes_by_pattern_then_document_order
           docForwardNext [] (Re.ci (Re.word "next")) (tl classIdPatterns)
           [forwardLink] nextLink []).
  - reflexivity.
  - vm_compute; reflexivity.
  - intros q x [].
  - intros x [<-|[]]. vm_compute; reflexivity.
  - vm_compute; reflexivity.
  - vm_compute; reflexivity.
Defined.

(** C10, as stated, fails when the element matching the earlier pattern
    fails the validity gate: the link of class forward, first in the
    document and matching only the later pattern, is the candidate. *)
Lemma C10_hidden_next_yields_to_forward :
  querySelectorAll docForwardHiddenNext clickableSelector
    = [forwardLink; hiddenNextLink]
  /\ map (fun q => Re.test q (classIdOf forwardLink)) classIdPatterns
     = [false; false; false; true; false; false]
  /\ Re.test (Re.ci (Re.word "next")) (classIdOf hiddenNextLink) = true
  /\ findByClassId docForwardHiddenNext
     = Some (heuristicCandidate forwardLink ClassId 0.8).
Proof. repeat split; vm_compute; reflexivity. Qed.

(** *** Numbered pagination *)

Lemma matchHere_Void (ic toEnd : bool) (s : str) :
  Re.matchHere ic toEnd Re.Void s = false.
Proof. induction s as [|x t IH]; simpl; [reflexivity|]. now rewrite andb_false_r. Qed.

Lemma matchHere_digits (s : str) :
  Re.matchHere false true (Re.Star Re.Digit) s = forallb isDigit s.
Proof.
  induction s as [|x t IH]; simpl; [reflexivity|].
  destruct (isDigit x); simpl; [exact IH | apply matchHere_Void].
Qed.

Lemma digitsRe_pure_integer (s : str) :
  Re.test digitsRe s = isPureInteger s.
Proof.
  unfold Re.test, digitsRe, isPureInteger. simpl.
  destruct s as [|x t]; simpl; [reflexivity|].
  destruct (isDigit x); simpl; [apply matchHere_digits | apply matchHere_Void].
Qed.

Lemma findIndex_first (A : Type) (f : A -> bool) (before : list A) (x : A)
      (after : list A) :
  (forall y, In y before -> f y = false) ->
  f x = true ->
  findIndex f (before ++ x :: after) = Z.of_nat (List.length before).
Proof.
  intros Hb Hx. induction before as [|y before IH].
  - simpl. now rewrite Hx.
  - cbn [findIndex app List.length]. rewrite (Hb y (or_introl eq_refl)).
    rewrite IH by (intros z Hz; apply Hb; now right).
    destruct (Z.ltb_spec (Z.of_nat (List.length before)) 0); lia.
Qed.

Lemma findIndex_none (A : Type) (f : A -> bool) (l : list A) :
  (forall y, In y l -> f y = false) -> findIndex f l = (-1)%Z.
Proof.
  intros H. induction l as [|y l IH]; [reflexivity|].
  cbn [findIndex]. rewrite (H y (or_introl eq_refl)).
  rewrite IH by (intros z Hz; apply H; now right). reflexivity.
Qed.

Lemma findIndex_cases (A : Type) (f : A -> bool) (l : list A) :
  (findIndex f l = (-1)%Z /\ forall y, In y l -> f y = false)
  \/ exists before x after,
       l = before ++ x :: after
       /\ (forall y, In y before -> f y = false)
       /\ f x = true
       /\ findIndex f l = Z.of_nat (List.length before).
Proof.
  destruct (find f l) as [x|] eqn:Hf.
  - right. destruct (find_split f l Hf) as (b & a & -> & Hb & Hx).
    exists b, x, a. repeat split; auto. now apply findIndex_first.
  - left. pose proof (find_none f l Hf) as Hn. split; auto.
    now apply findIndex_none.
Qed.

Lemma numberedInContainer_iff (k : Element) (c : Candidate) :
  numberedInContainer k = Some c <->
  exists before cur nxt after,
    querySelectorAllIn k linkSelector = before ++ cur :: nxt :: after
    /\ (forall x, In x before -> isCurrentLink x = false)
    /\ isCurrentLink cur = true
    /\ (isPureInteger (getElementText (Some nxt))
        || Re.test nextTokenRe (getElementText (Some nxt))) = true
    /\ c = numberedCandidate nxt.
Proof.
  unfold numberedInContainer.
  set (links := querySelectorAllIn k linkSelector). split.
  - destruct (findIndex_cases isCurrentLink links)
      as [[Hi _] | (b & x & a & Hl & Hb & Hx & Hi)]; rewrite Hi.
    + simpl. discriminate.
    + destruct (_ && _)%bool eqn:Hc; [|discriminate].
      apply andb_prop in Hc. destruct Hc as [_ Hlt].
      apply Z.ltb_lt in Hlt. rewrite Hl, length_app in Hlt. simpl in Hlt.
      replace (Z.to_nat (Z.of_nat (List.length b) + 1)) with (List.length b + 1)%nat by lia.
      rewrite Hl, nth_error_app2 by lia.
      replace (List.length b + 1 - List.length b)%nat with 1%nat by lia.
      destruct a as [|nxt a]; [simpl in Hlt; lia|]. simpl.
      rewrite digitsRe_pure_integer.
      destruct (_ || _)%bool eqn:Ht; [|discriminate].
      intros [= <-]. exists b, x, nxt, a. repeat split; auto.
  - intros (b & cur & nxt & a & Hl & Hb & Hcur & Ht & ->).
    rewrite Hl, (findIndex_first _ _ _ _ Hb Hcur).
    replace ((0 <=? Z.of_nat (List.length b))%Z
             && (Z.of_nat (List.length b)
                 <? Z.of_nat (List.length (b ++ cur :: nxt :: a)) - 1)%Z)
      with true.
    + replace (Z.to_nat (Z.of_nat (List.length b) + 1)) with (List.length b + 1)%nat by lia.
      rewrite nth_error_app2 by lia.
      replace (List.length b + 1 - List.length b)%nat with 1%nat by lia.
      simpl. rewrite digitsRe_pure_integer, Ht. reflexivity.
    + symmetry. apply andb_true_intro. split.
      * apply Z.leb_le. lia.
      * apply Z.ltb_lt. rewrite length_app. simpl. lia.
Qed.

Lemma numberedLoop_iff (d : Document) (sels : list selector) (c : Candidate) :
  numberedLoop d sels = Some c <->
  exists pre sel post,
    sels = pre ++ sel :: post
    /\ (forall s, In s pre -> containerResult d s = None)
    /\ containerResult d sel = Some c.
Proof.
  induction sels as [|s rest IH].
  - simpl. split; [discriminate|].
    intros (pre & sel & post & H & _). destruct pre; discriminate.
  - cbn [numberedLoop].
    assert (Hstep :
      match querySelector d s with
      | None => numberedLoop d rest
      | Some container =>
        match numberedInContainer container with
        | Some c0 => Some c0
        | None => numberedLoop d rest
        end
      end = match containerResult d s with
            | Some c0 => Some c0
            | None => numberedLoop d rest
            end).
    { unfold containerResult. destruct (querySelector d s); reflexivity. }
    rewrite Hstep. destruct (containerResult d s) as [c0|] eqn:Hs.
    + split.
      * intros [= <-]. exists [], s, rest. repeat split; auto. intros ? [].
      * intros (pre & sel & post & Hl & Hpre & Hsel).
        destruct pre as [|s' pre]; simpl in Hl; injection Hl as <- Hrest.
        -- congruence.
        -- rewrite (Hpre s (or_introl eq_refl)) in Hs. discriminate.
    + rewrite IH. split.
      * intros (pre & sel & post & -> & Hpre & Hsel).
        exists (s :: pre), sel, post. repeat split; auto.
        intros x [<-|Hx]; auto.
      * intros (pre & sel & post & Hl & Hpre & Hsel).
        destruct pre as [|s' pre]; simpl in Hl; injection Hl as <- Hrest.
        -- congruence.
        -- exists pre, sel, post. repeat split; auto.
           intros x Hx. apply Hpre. now right.
Qed.

(** C6 (as amended).  [findNumberedPagination] goes through the container
    selectors in their fixed order; a selector that matches nothing, or
    whose first matching container gives no candidate, is passed over, and
    the candidate is that of the first selector whose container gives one.
    A container gives a candidate exactly when, among its links with an
    href, the first current one (class current or active,
    aria-current=page, or a disabled attribute) is followed by a link
    whose text is a pure integer or contains next, a single right angle
    quote, a right arrow or a double right angle quote; the candidate is
    that following link, of type numbered-pagination.  Links 1 to 5 with
    class current on 3 give the link 4. *)
Theorem C6_numbered_pagination_tries_every_container :
  paginationSelectors
  = [ [[[SClass "pagination"]]]; [[[SClass "pager"]]];
      [[[SClass "page-navigation"]]]; [[[SClass "nav-links"]]];
      [[[SAttrEq "role" (js "navigation")]]]; [[[STag "nav"]]];
      [[[SClass "paginator"]]]; [[[SClass "page-numbers"]]];
      [[[SClass "wp-pagenavi"]]]; [[[SClass "pagination-wrapper"]]] ]
  /\ (forall d c,
        findNumberedPagination d = Some c <->
        exists pre sel post,
          paginationSelectors = pre ++ sel :: post
          /\ (forall s, In s pre -> containerResult d s = None)
          /\ containerResult d sel = Some c)
  /\ (forall k c,
        numberedInContainer k = Some c <->
        exists before cur nxt after,
          querySelectorAllIn k linkSelector = before ++ cur :: nxt :: after
          /\ (forall x, In x before -> isCurrentLink x = false)
          /\ isCurrentLink cur = true
          /\ (isPureInteger (getElementText (Some nxt))
              || Re.test nextTokenRe (getElementText (Some nxt))) = true
          /\ c = numberedCandidate nxt)
  /\ (forall nxt, type (numberedCandidate nxt) = NumberedPagination
                  /\ element (numberedCandidate nxt) = Some nxt)
  /\ findNumberedPagination docFivePages = Some (numberedCandidate link4)
  /\ findNextPage docFivePages = Some (numberedCandidate link4).
Proof.
  split; [reflexivity|].
  split; [intros d c; apply numberedLoop_iff|].
  split; [exact numberedInContainer_iff|].
  split; [intros nxt; split; reflexivity|].
  split; vm_compute; reflexivity.
Qed.

(** C6, as stated, fails: the first container that exists, an empty
    .pagination block, gives nothing, and the matcher goes on to the .pager
    block and returns its link 2. *)
Lemma C6_later_container_is_examined :
  firstExistingContainer docTwoContainers paginationSelectors = Some emptyBlock
  /\ numberedInContainer emptyBlock = None
  /\ numberedFirstContainerOnly docTwoContainers = None
  /\ findNumberedPagination docTwoContainers = Some (numberedCandidate pagerTwo)
  /\ findNumberedPagination docTwoContainers
     <> numberedFirstContainerOnly docTwoContainers.
Proof.
  assert (H1 : numberedFirstContainerOnly docTwoContainers = None)
    by (vm_compute; reflexivity).
  assert (H2 : findNumberedPagination docTwoContainers
               = Some (numberedCandidate pagerTwo)) by (vm_compute; reflexivity).
  repeat split; auto; try (vm_compute; reflexivity).
  rewrite H1, H2. discriminate.
Qed.

(** *** Infinite scroll and the page summary *)

Section LoadMoreAndInfo.
Context {host : Host}.

Lemma phraseLoop_eq (d : Document) (b : Element) (text : str) (ps : list str) :
  phraseLoop d b text ps =
  if existsb (fun p => includes text (toLowerCase p)) ps
  then Some (loadMoreCandidate d b) else None.
Proof.
  induction ps as [|p rest IH]; simpl; [reflexivity|].
  destruct (includes text (toLowerCase p)); [reflexivity | exact IH].
Qed.

Lemma buttonLoop_eq (d : Document) (buttons : list Element) :
  buttonLoop d buttons =
  option_map (loadMoreCandidate d) (find hasLoadMorePhrase buttons).
Proof.
  induction buttons as [|b rest IH]; cbn [buttonLoop find]; [reflexivity|].
  rewrite phraseLoop_eq. unfold hasLoadMorePhrase at 1.
  destruct (existsb _ infiniteScrollPatterns); [reflexivity | exact IH].
Qed.

(** C9 (as amended).  [findInfiniteScrollButton] scans the elements
    matching button, a[href], [role=button] (buttons, anchors that have an
    href, role=button elements) in document order and returns a candidate for
    the first one whose extracted text, lower-cased, includes one of the
    load-more phrases, lower-cased; the candidate has type
    infinite-scroll, confidence 0.7, isLoadMore true, and as url the URL
    [getElementUrl] resolves for the element or, when that is null, the
    current location.  A lone button labelled Load More with no href gives
    such a candidate with the current location as url. *)
Theorem C9_infinite_scroll_first_phrase_match (d : Document) :
  (forall c,
     findInfiniteScrollButton d = Some c <->
     exists before b after,
       querySelectorAll d buttonSelector = before ++ b :: after
       /\ (forall x, In x before -> hasLoadMorePhrase x = false)
       /\ hasLoadMorePhrase b = true
       /\ c = loadMoreCandidate d b)
  /\ (forall b,
        loadMoreCandidate d b
        = mkCandidate (Some b)
            (match getElementUrl (Some b) with
             | Some (u :: rl) => Some (u :: rl)
             | _ => Some (locationHref d)
             end)
            InfiniteScroll 0.7 None (Some true))
  /\ (forall b, getElementUrl (Some b) = None ->
        url (loadMoreCandidate d b) = Some (locationHref d))
  /\ @findNextPage latin1Host docLoadMore
     = Some (mkCandidate (Some loadMore) (Some (locationHref docLoadMore))
                         InfiniteScroll 0.7 None (Some true)).
Proof.
  split.
  { intros c. unfold findInfiniteScrollButton. rewrite buttonLoop_eq. split.
    - destruct (find _ _) as [b|] eqn:Hf; [|discriminate].
      intros [= <-]. destruct (find_split _ _ Hf) as (bf & af & Hq & Hb & Hx).
      exists bf, b, af. repeat split; auto.
    - intros (bf & b & af & Hq & Hb & Hx & ->).
      rewrite Hq, (find_first _ _ _ _ Hb Hx). reflexivity. }
  split.
  { intros b. unfold loadMoreCandidate, orElse, truthy.
    destruct (getElementUrl (Some b)) as [[|u rl]|]; reflexivity. }
  split.
  { intros b Hb. unfold loadMoreCandidate. rewrite Hb. reflexivity. }
  vm_compute. reflexivity.
Qed.

(** C9, as stated, fails for an anchor without an href: such an anchor,
    labelled Load more and first among the buttons, anchors and
    role=button elements of the page, is not scanned; the candidate is
    the button after it, and there is none when the anchor stands alone. *)
Lemma C9_anchor_without_href_is_not_scanned :
  querySelectorAll docAnchorThenButton wordedButtonSelector
    = [bareAnchor; loadMore]
  /\ @hasLoadMorePhrase latin1Host bareAnchor = true
  /\ querySelectorAll docAnchorThenButton buttonSelector = [loadMore]
  /\ @findInfiniteScrollButton latin1Host docAnchorThenButton
     = Some (loadMoreCandidate docAnchorThenButton loadMore)
  /\ element (loadMoreCandidate docAnchorThenButton loadMore)
     <> Some bareAnchor
  /\ @findInfiniteScrollButton latin1Host (page [bareAnchor]) = None.
Proof.
  repeat split; try (vm_compute; reflexivity).
  vm_compute. discriminate.
Qed.

Lemma mathMax_spec (rest : list Z) (n : Z) :
  In (mathMax n rest) (n :: rest)
  /\ forall x, In x (n :: rest) -> (x <= mathMax n rest)%Z.
Proof.
  unfold mathMax. revert n. induction rest as [|y rest IH]; intros n; simpl.
  - split; [now left|]. intros x [<-|[]]. lia.
  - destruct (IH (Z.max n y)) as [Hin Hle]. split.
    + destruct Hin as [Hin|Hin]; [|now right; right].
      rewrite <- Hin. destruct (Z.max_spec n y) as [[_ ->]|[_ ->]]; auto.
    + intros x [<-|[<-|Hx]].
      * etransitivity; [|apply Hle; now left]. lia.
      * etransitivity; [|apply Hle; now left]. lia.
      * apply Hle. now right.
Qed.

Lemma pageNumbersOf_In (links : list Element) (n : Z) :
  In n (pageNumbersOf links) <->
  exists l, In l links /\ parseInt (getElementText (Some l)) = Some n.
Proof.
  unfold pageNumbersOf. rewrite in_flat_map. split.
  - intros (l & Hl & Hn). exists l. split; auto.
    destruct (parseInt _) as [m|]; [|destruct Hn].
    destruct Hn as [->|[]]. reflexivity.
  - intros (l & Hl & Hn). exists l. split; auto. rewrite Hn. now left.
Qed.

(** C8.  [getPaginationInfo] reports: as current page the integer parsed
    from the text of the first element matching .current, .active or
    [aria-current=page], and 1 when there is no such element or its text
    does not parse; as total the greatest integer parsed from the texts of
    the links matching .pagination a, .pager a, .page-numbers a, and null
    when none parses; hasNext exactly when [findNextPage] returns a
    candidate; hasPrevious exactly when some element matches a[rel=prev],
    .prev or .previous.  A .pagination block with links 1, 2, 3 and
    .current on 2 gives current page 2 and total 3. *)
Theorem C8_getPaginationInfo_fields (d : Document) :
  match querySelectorAll d currentSelector with
  | [] => currentPage (getPaginationInfo d) = 1%Z
  | e :: _ =>
    match parseInt (getElementText (Some e)) with
    | Some n => currentPage (getPaginationInfo d) = n
    | None => currentPage (getPaginationInfo d) = 1%Z
    end
  end
  /\ (forall m,
        totalPages (getPaginationInfo d) = Some m <->
        (exists l, In l (querySelectorAll d pageLinkSelector)
                   /\ parseInt (getElementText (Some l)) = Some m)
        /\ (forall l n, In l (querySelectorAll d pageLinkSelector) ->
              parseInt (getElementText (Some l)) = Some n -> (n <= m)%Z))
  /\ (totalPages (getPaginationInfo d) = None <->
      forall l, In l (querySelectorAll d pageLinkSelector) ->
                parseInt (getElementText (Some l)) = None)
  /\ (hasNext (getPaginationInfo d) = true <-> exists c, findNextPage d = Some c)
  /\ (hasPrevious (getPaginationInfo d) = true <->
      exists e, In e (querySelectorAll d previousSelector))
  /\ (currentPage (@getPaginationInfo latin1Host docThreePages) = 2%Z
      /\ totalPages (@getPaginationInfo latin1Host docThreePages) = Some 3%Z).
Proof.
  split.
  { unfold getPaginationInfo, querySelector. cbn [currentPage].
    destruct (querySelectorAll d currentSelector) as [|e rest]; cbn [hd_error];
      [reflexivity|].
    destruct (parseInt _); reflexivity. }
  split.
  { intros m. unfold getPaginationInfo. cbn [totalPages].
    set (links := querySelectorAll d pageLinkSelector).
    pose proof (pageNumbersOf_In links) as Hin.
    destruct (pageNumbersOf links) as [|n rest] eqn:Hp.
    - split; [discriminate|]. intros [(l & Hl & Hm) _].
      destruct (proj2 (Hin m)) as []. now exists l.
    - destruct (mathMax_spec rest n) as [Hmem Hle]. split.
      + intros [= <-]. split.
        * apply Hin. exact Hmem.
        * intros l k Hl Hk. apply Hle. apply Hin. now exists l.
      + intros [Hex Hall]. f_equal.
        apply Hin in Hex. apply Hin in Hmem.
        destruct Hmem as (l & Hl & Hk).
        pose proof (Hall l _ Hl Hk). pose proof (Hle m Hex). lia. }
  split.
  { unfold getPaginationInfo. cbn [totalPages].
    set (links := querySelectorAll d pageLinkSelector).
    pose proof (pageNumbersOf_In links) as Hin.
    destruct (pageNumbersOf links) as [|n rest] eqn:Hp.
    - split; [|reflexivity]. intros _ l Hl.
      destruct (parseInt (getElementText (Some l))) as [k|] eqn:Hk; [|reflexivity].
      destruct (proj2 (Hin k)) as []. now exists l.
    - split; [discriminate|]. intros Hnone.
      destruct (proj1 (Hin n) (or_introl eq_refl)) as (l & Hl & Hk).
      rewrite (Hnone l Hl) in Hk. discriminate. }
  split.
  { unfold getPaginationInfo. cbn [hasNext].
    destruct (findNextPage d) as [c|]; split; try discriminate.
    - intros _. now exists c.
    - reflexivity.
    - intros [c Hc]. discriminate. }
  split.
  { unfold getPaginationInfo, querySelector. cbn [hasPrevious].
    destruct (querySelectorAll d previousSelector) as [|e rest]; cbn [hd_error];
      split; try discriminate.
    - intros [e []].
    - intros _. exists e. now left.
    - reflexivity. }
  split; vm_compute; reflexivity.
Qed.

End LoadMoreAndInfo.

(** *** Waiting for new content *)

Section Waiting.
Variable w : World.
Variables maxWait startTime initialHeight : Z.

Lemma pollFrom_sound (fuel k : nat) (b : bool) (j : nat) :
  pollFrom w maxWait startTime initialHeight fuel k = Some (b, j) ->
  (k <= j < k + fuel)%nat
  /\ (forall i, (k <= i < j)%nat -> pendingAt w maxWait startTime initialHeight i)
  /\ (b = true -> (scrollHeight w j > initialHeight)%Z)
  /\ (b = false -> (scrollHeight w j <= initialHeight)%Z
                   /\ (clock w j - startTime >= maxWait)%Z).
Proof.
  revert k. induction fuel as [|fuel IH]; intros k; simpl; [discriminate|].
  destruct (Z.gtb_spec (scrollHeight w k) initialHeight) as [Hg|Hg].
  - intros [= <- <-]. repeat split; try lia; try discriminate.
  - destruct (Z.geb_spec (clock w k - startTime) maxWait) as [He|He].
    + intros [= <- <-]. repeat split; try lia; try discriminate.
    + intros H. destruct (IH _ H) as (Hr & Hp & Ht & Hf).
      repeat split; try lia; auto.
      * destruct (Nat.eq_dec i k) as [->|]; [lia|]. apply Hp. lia.
      * destruct (Nat.eq_dec i k) as [->|]; [lia|]. apply Hp. lia.
      * now apply Hf.
      * now apply Hf.
Qed.

Lemma pollFrom_first (fuel k j : nat) :
  (k <= j < k + fuel)%nat ->
  (forall i, (k <= i < j)%nat -> pendingAt w maxWait startTime initialHeight i) ->
  resolvesAt w maxWait startTime initialHeight j ->
  pollFrom w maxWait startTime initialHeight fuel k
  = Some ((scrollHeight w j >? initialHeight)%Z, j).
Proof.
  revert k. induction fuel as [|fuel IH]; intros k Hr Hp Hj; [lia|]. simpl.
  destruct (Nat.eq_dec k j) as [->|Hne].
  - destruct (Z.gtb_spec (scrollHeight w j) initialHeight) as [Hg|Hg];
      [reflexivity|].
    destruct (Z.geb_spec (clock w j - startTime) maxWait) as [He|He];
      [reflexivity|].
    destruct Hj; lia.
  - destruct (Hp k) as [Hh Hc]; [lia|].
    destruct (Z.gtb_spec (scrollHeight w k) initialHeight) as [Hg|Hg]; [lia|].
    destruct (Z.geb_spec (clock w k - startTime) maxWait) as [He|He]; [lia|].
    apply IH; auto; try lia. intros i Hi. apply Hp. lia.
Qed.

Lemma pollFrom_resolves (fuel k K : nat) :
  (k <= K < k + fuel)%nat ->
  resolvesAt w maxWait startTime initialHeight K ->
  exists b j, (j <= K)%nat
    /\ pollFrom w maxWait startTime initialHeight fuel k = Some (b, j).
Proof.
  revert k. induction fuel as [|fuel IH]; intros k Hr HK; [lia|]. simpl.
  destruct (Z.gtb_spec (scrollHeight w k) initialHeight) as [Hg|Hg].
  - exists true, k. split; [lia | reflexivity].
  - destruct (Z.geb_spec (clock w k - startTime) maxWait) as [He|He].
    + exists false, k. split; [lia | reflexivity].
    + destruct (Nat.eq_dec k K) as [->|Hne]; [destruct HK; lia|].
      apply IH; auto. lia.
Qed.

Lemma pollFrom_pending (fuel k : nat) :
  (forall i, (k <= i < k + fuel)%nat -> pendingAt w maxWait startTime initialHeight i) ->
  pollFrom w maxWait startTime initialHeight fuel k = None.
Proof.
  revert k. induction fuel as [|fuel IH]; intros k Hp; [reflexivity|]. simpl.
  destruct (Hp k) as [Hh Hc]; [lia|].
  destruct (Z.gtb_spec (scrollHeight w k) initialHeight) as [Hg|Hg]; [lia|].
  destruct (Z.geb_spec (clock w k - startTime) maxWait) as [He|He]; [lia|].
  apply IH. intros i Hi. apply Hp. lia.
Qed.

End Waiting.

(** C5.  [waitForNewContent] reads the clock and the height of the body on
    entry and then at every run of a timer of period 100 ms.  When it
    resolves at run j, every run before j saw a height no greater than the
    initial one and less than [maxWait] elapsed; it resolves true exactly
    on a height greater than the initial one, and false only with
    [maxWait] or more elapsed.  It resolves true at the first run that
    sees a greater height, and it resolves by the first run at which
    [maxWait] has elapsed.  With the timer on time, the default
    [maxWait] of 5000 and a body that never grows, it resolves false at
    run 50 (5000 ms) and is pending before. *)
Theorem C5_waitForNewContent_polls_until_growth_or_timeout
        (w : World) (maxWait : Z) :
  (forall fuel b j,
     waitForNewContent w maxWait fuel = Some (b, j) ->
     (1 <= j <= fuel)%nat
     /\ (forall i, (1 <= i < j)%nat ->
           (scrollHeight w i <= scrollHeight w 0)%Z
           /\ (clock w i - clock w 0 < maxWait)%Z)
     /\ (b = true -> (scrollHeight w j > scrollHeight w 0)%Z)
     /\ (b = false -> (scrollHeight w j <= scrollHeight w 0)%Z
                      /\ (clock w j - clock w 0 >= maxWait)%Z))
  /\ (forall fuel j,
        (1 <= j <= fuel)%nat ->
        (forall i, (1 <= i < j)%nat ->
           (scrollHeight w i <= scrollHeight w 0)%Z
           /\ (clock w i - clock w 0 < maxWait)%Z) ->
        (scrollHeight w j > scrollHeight w 0)%Z ->
        waitForNewContent w maxWait fuel = Some (true, j))
  /\ (forall fuel K,
        (1 <= K <= fuel)%nat ->
        (clock w K - clock w 0 >= maxWait)%Z ->
        exists b j, (j <= K)%nat
                    /\ waitForNewContent w maxWait fuel = Some (b, j))
  /\ (onSchedule w -> neverGrows w ->
      forall fuel,
        waitForNewContent w defaultMaxWait fuel
        = if (50 <=? fuel)%nat then Some (false, 50%nat) else None)
  /\ (pollInterval = 100%Z /\ defaultMaxWait = 5000%Z
      /\ waitForNewContent stillWorld defaultMaxWait 60 = Some (false, 50%nat)
      /\ waitForNewContent stillWorld defaultMaxWait 49 = None
      /\ waitForNewContent growingWorld defaultMaxWait 60 = Some (true, 2%nat)).
Proof.
  unfold waitForNewContent. split.
  { intros fuel b j H. apply pollFrom_sound in H.
    destruct H as (Hr & Hp & Ht & Hf). repeat split; try lia; auto.
    - apply Hp. lia.
    - apply Hp. lia.
    - now apply Hf.
    - now apply Hf. }
  split.
  { intros fuel j Hj Hp Hg.
    rewrite (@pollFrom_first w maxWait (clock w 0) (scrollHeight w 0) fuel 1 j).
    - destruct (Z.gtb_spec (scrollHeight w j) (scrollHeight w 0)); [reflexivity | lia].
    - lia.
    - intros i Hi. exact (Hp i Hi).
    - left. exact Hg. }
  split.
  { intros fuel K HK He. apply pollFrom_resolves; [lia|]. right. exact He. }
  split.
  { intros Hs Hn fuel. destruct (Nat.leb_spec 50 fuel) as [Hf|Hf].
    - rewrite (@pollFrom_first w defaultMaxWait (clock w 0) (scrollHeight w 0)
                               fuel 1 50).
      + destruct (Z.gtb_spec (scrollHeight w 50) (scrollHeight w 0)) as [Hg|Hg];
          [|reflexivity].
        pose proof (Hn 50%nat). lia.
      + lia.
      + intros i Hi. split; [apply Hn|]. rewrite (Hs i).
        unfold pollInterval, defaultMaxWait. lia.
      + right. rewrite (Hs 50%nat). unfold pollInterval, defaultMaxWait. lia.
    - apply pollFrom_pending. intros i Hi. split; [apply Hn|].
      rewrite (Hs i). unfold pollInterval, defaultMaxWait. lia. }
  repeat split; vm_compute; reflexivity.
Qed.

(** *** Navigating *)

Lemma navigate_click_path (w : World) (fuel : nat) (info : Candidate)
      (el : Element) (log : list Event) :
  element info = Some el ->
  isTrue (isLoadMore info) = true \/ truthy (url info) = false ->
  navigateToNextPage w fuel (Some info) log =
  if clickThrows w el then (Returned false, log ++ [ConsoleError])
  else if bodyPresent w then
    match waitForNewContent w defaultMaxWait fuel with
    | Some (b, j) => (Returned true, log ++ [Clicked el; Waited b j])
    | None => (Pending, log ++ [Clicked el])
    end
  else (Returned false, log ++ [Clicked el; ConsoleError]).
Proof.
  intros He Hpath. unfold navigateToNextPage. rewrite He.
  assert (Hsame :
    (if isTrue (isLoadMore info) then
       click w el ;; awaitNewContent w fuel ;; ret true
     else if truthy (url info) then
       setLocationHref w (orEmpty (url info)) ;; ret true
     else click w el ;; awaitNewContent w fuel ;; ret true)
    = (click w el ;; awaitNewContent w fuel ;; ret true)).
  { destruct Hpath as [-> | ->]; [reflexivity|].
    destruct (isTrue (isLoadMore info)); reflexivity. }
  rewrite Hsame.
  unfold tryCatch, bind, click, awaitNewContent, consoleError, ret.
  destruct (clickThrows w el); [reflexivity|].
  destruct (bodyPresent w); [|now rewrite <- app_assoc].
  destruct (waitForNewContent w defaultMaxWait fuel) as [[b j]|].
  - rewrite <- app_assoc. reflexivity.
  - reflexivity.
Qed.

Lemma navigate_url_path (w : World) (fuel : nat) (info : Candidate)
      (el : Element) (log : list Event) :
  element info = Some el ->
  isTrue (isLoadMore info) = false ->
  truthy (url info) = true ->
  navigateToNextPage w fuel (Some info) log =
  if navigationThrows w (orEmpty (url info))
  then (Returned false, log ++ [ConsoleError])
  else (Returned true, log ++ [Navigated (orEmpty (url info))]).
Proof.
  intros He Hl Hu. unfold navigateToNextPage. rewrite He, Hl, Hu.
  unfold tryCatch, bind, setLocationHref, consoleError, ret.
  destruct (navigationThrows w (orEmpty (url info))); reflexivity.
Qed.

(** C3 (as amended).  For a load-more candidate and for a candidate with
    an element and no url, [navigateToNextPage] clicks the element, awaits
    [waitForNewContent] and then returns true, whether the wait resolved
    true (the body grew) or false (timeout); it returns false, with the
    error logged, only when the click raises or, the click done, when the
    wait raises because the document has no body.  The wait does resolve
    once the clock reaches the timeout at some run of the timer. *)
Theorem C3_click_wait_then_true
        (w : World) (fuel : nat) (info : Candidate) (el : Element)
        (log : list Event) (K : nat) :
  element info = Some el ->
  isTrue (isLoadMore info) = true \/ truthy (url info) = false ->
  (1 <= K <= fuel)%nat ->
  (clock w K - clock w 0 >= defaultMaxWait)%Z ->
  exists b j,
    waitForNewContent w defaultMaxWait fuel = Some (b, j)
    /\ navigateToNextPage w fuel (Some info) log
       = if clickThrows w el
         then (Returned false, log ++ [ConsoleError])
         else if bodyPresent w
              then (Returned true, log ++ [Clicked el; Waited b j])
              else (Returned false, log ++ [Clicked el; ConsoleError]).
Proof.
  intros He Hpath HK Ht.
  destruct (@pollFrom_resolves w defaultMaxWait (clock w 0) (scrollHeight w 0)
                               fuel 1 K) as (b & j & _ & Hw);
    [lia | right; exact Ht |].
  fold (waitForNewContent w defaultMaxWait fuel) in Hw.
  exists b, j. split; [exact Hw|].
  rewrite (navigate_click_path w fuel info log He Hpath), Hw. reflexivity.
Qed.

(** A load-more candidate on a page that never grows: the click is made,
    the wait runs to its timeout, the result is true. *)
Lemma C3_witness_load_more_on_still_page :
  exists b j,
    waitForNewContent stillWorld defaultMaxWait 60 = Some (b, j)
    /\ navigateToNextPage stillWorld 60
         (Some (loadMoreCandidate docLoadMore loadMore)) []
       = if clickThrows stillWorld loadMore
         then (Returned false, [] ++ [ConsoleError])
         else if bodyPresent stillWorld
              then (Returned true, [] ++ [Clicked loadMore; Waited b j])
              else (Returned false, [] ++ [Clicked loadMore; ConsoleError]).
Proof.
  apply (@C3_click_wait_then_true stillWorld 60
           (loadMoreCandidate docLoadMore loadMore) loadMore [] 50).
  - reflexivity.
  - left. reflexivity.
  - lia.
  - vm_compute. discriminate.
Defined.

(** C3, as stated, fails: on a page whose body never grows the wait
    resolves false after 5000 ms and [navigateToNextPage] still returns
    true, for the load-more candidate and for the click-only candidate. *)
Lemma C3_true_although_the_wait_resolved_false :
  findNextPage docLoadMore = Some (loadMoreCandidate docLoadMore loadMore)
  /\ findNextPage docSpa = Some (heuristicCandidate spaNext TextContent 0.9)
  /\ url (heuristicCandidate spaNext TextContent 0.9) = None
  /\ waitForNewContent stillWorld defaultMaxWait 60 = Some (false, 50%nat)
  /\ navigateToNextPage stillWorld 60
       (Some (loadMoreCandidate docLoadMore loadMore)) []
     = (Returned true, [Clicked loadMore; Waited false 50])
  /\ navigateToNextPage stillWorld 60
       (Some (heuristicCandidate spaNext TextContent 0.9)) []
     = (Returned true, [Clicked spaNext; Waited false 50]).
Proof. repeat split; vm_compute; reflexivity. Qed.

(** With no body the wait raises after the click: the error is logged and
    the result is false. *)
Lemma navigate_without_body :
  navigateToNextPage bodilessWorld 60
    (Some (loadMoreCandidate docLoadMore loadMore)) []
  = (Returned false, [Clicked loadMore; ConsoleError])
  /\ navigateToNextPage bodilessWorld 60
       (Some (heuristicCandidate spaNext TextContent 0.9)) []
     = (Returned false, [Clicked spaNext; ConsoleError]).
Proof. split; vm_compute; reflexivity. Qed.

Lemma navigate_never_throws (w : World) (fuel : nat)
      (info : option Candidate) (log : list Event) :
  fst (navigateToNextPage w fuel info log) <> Thrown.
Proof.
  destruct info as [info|]; [|simpl; discriminate].
  destruct (element info) as [el|] eqn:He;
    [|unfold navigateToNextPage; rewrite He; simpl; discriminate].
  destruct (isTrue (isLoadMore info)) eqn:Hl.
  - rewrite (navigate_click_path w fuel info log He (or_introl Hl)).
    destruct (clickThrows w el); [simpl; discriminate|].
    destruct (bodyPresent w); [|simpl; discriminate].
    destruct (waitForNewContent _ _ _) as [[b j]|]; simpl; discriminate.
  - destruct (truthy (url info)) eqn:Hu.
    + rewrite (navigate_url_path w fuel info log He Hl Hu).
      destruct (navigationThrows _ _); simpl; discriminate.
    + rewrite (navigate_click_path w fuel info log He (or_intror Hu)).
      destruct (clickThrows w el); [simpl; discriminate|].
      destruct (bodyPresent w); [|simpl; discriminate].
      destruct (waitForNewContent _ _ _) as [[b j]|]; simpl; discriminate.
Qed.

(** C4.  [navigateToNextPage] returns false at once, with no effect, when
    the candidate is null or has no element.  For a candidate that is not
    load-more and has a url it assigns the url to [location.href] and
    returns true with no wait, whatever the timer does.  It never ends in
    an exception: when the click or the assignment raises, the error is
    logged and the result is false. *)
Theorem C4_navigateToNextPage_guards_and_catches
        (w : World) (fuel : nat) (log : list Event) :
  navigateToNextPage w fuel None log = (Returned false, log)
  /\ (forall info, element info = None ->
        navigateToNextPage w fuel (Some info) log = (Returned false, log))
  /\ (forall info el,
        element info = Some el ->
        isTrue (isLoadMore info) = false ->
        truthy (url info) = true ->
        navigationThrows w (orEmpty (url info)) = false ->
        navigateToNextPage w fuel (Some info) log
        = (Returned true, log ++ [Navigated (orEmpty (url info))])
        /\ url info = Some (orEmpty (url info)))
  /\ (forall info, fst (navigateToNextPage w fuel info log) <> Thrown)
  /\ (forall info el,
        element info = Some el ->
        isTrue (isLoadMore info) = true \/ truthy (url info) = false ->
        clickThrows w el = true ->
        navigateToNextPage w fuel (Some info) log
        = (Returned false, log ++ [ConsoleError]))
  /\ (forall info el,
        element info = Some el ->
        isTrue (isLoadMore info) = false ->
        truthy (url info) = true ->
        navigationThrows w (orEmpty (url info)) = true ->
        navigateToNextPage w fuel (Some info) log
        = (Returned false, log ++ [ConsoleError]))
  /\ (navigateToNextPage stillWorld 0 (Some (relCandidate relNext)) []
      = (Returned true, [Navigated (js "https://x/2")])
      /\ navigateToNextPage brokenWorld 60 (Some (relCandidate relNext)) []
         = (Returned false, [ConsoleError])
      /\ navigateToNextPage brokenWorld 60
           (Some (loadMoreCandidate docLoadMore loadMore)) []
         = (Returned false, [ConsoleError])).
Proof.
  split; [reflexivity|].
  split.
  { intros info He. unfold navigateToNextPage. rewrite He. reflexivity. }
  split.
  { intros info el He Hl Hu Hn.
    rewrite (navigate_url_path w fuel info log He Hl Hu), Hn.
    split; [reflexivity|].
    destruct (url info) as [[|c t]|]; try discriminate. reflexivity. }
  split; [intros info; apply navigate_never_throws|].
  split.
  { intros info el He Hpath Hc.
    rewrite (navigate_click_path w fuel info log He Hpath), Hc. reflexivity. }
  split.
  { intros info el He Hl Hu Hn.
    rewrite (navigate_url_path w fuel info log He Hl Hu), Hn. reflexivity. }
  repeat split; vm_compute; reflexivity.
Qed.

(* ================================================================== *)
(** ** Further properties of the detector *)
(* ================================================================== *)

(** *** [Re.test] against the meaning of the patterns *)

Section RegexMeaning.
Variable ic : bool.

Ltac inv H := inversion H; subst; clear H.

Lemma lang_nil_nullable (r : Re.regex) :
  Re.nullable r = true <-> lang ic r [].
Proof.
  induction r; simpl; split; intros H;
    try discriminate; try (now constructor); try (now inv H).
  - apply andb_prop in H. destruct H as [Ha Hb].
    apply (L_Cat (s := []) (t := [])); [now apply IHr1 | now apply IHr2].
  - inv H.
    match goal with E : _ ++ _ = [] |- _ =>
      destruct (app_eq_nil _ _ E) as [-> ->] end.
    apply andb_true_intro. split; [now apply IHr1 | now apply IHr2].
  - apply orb_prop in H. destruct H as [H|H];
      [apply L_AltL; now apply IHr1 | apply L_AltR; now apply IHr2].
  - apply orb_true_intro. inv H; [left; now apply IHr1 | right; now apply IHr2].
Qed.

Lemma lang_Void (s : str) : ~ lang ic Re.Void s.
Proof. intros H. inv H. Qed.

Lemma lang_Eps (s : str) : lang ic Re.Eps s <-> s = [].
Proof. split; [intros H; now inv H | intros ->; constructor]. Qed.

Lemma lang_mkCat (a b : Re.regex) (s : str) :
  lang ic (Re.mkCat a b) s <-> lang ic (Re.Cat a b) s.
Proof.
  assert (Hv1 : forall b', lang ic (Re.Cat Re.Void b') s <-> lang ic Re.Void s).
  { intros b'. split; intros H; inv H.
    match goal with V : lang _ Re.Void _ |- _ => now apply lang_Void in V end. }
  assert (Hv2 : forall a', lang ic (Re.Cat a' Re.Void) s <-> lang ic Re.Void s).
  { intros a'. split; intros H; inv H.
    match goal with V : lang _ Re.Void _ |- _ => now apply lang_Void in V end. }
  assert (He : forall b', lang ic (Re.Cat Re.Eps b') s <-> lang ic b' s).
  { intros b'. split; intros H.
    - inv H. match goal with V : lang _ Re.Eps _ |- _ => inv V end. assumption.
    - apply (L_Cat (s := [])); [constructor | exact H]. }
  destruct a; destruct b; simpl;
    try reflexivity; try (symmetry; apply Hv1); try (symmetry; apply Hv2);
    try (symmetry; apply He).
Qed.

Lemma lang_mkAlt (a b : Re.regex) (s : str) :
  lang ic (Re.mkAlt a b) s <-> lang ic (Re.Alt a b) s.
Proof.
  assert (Hl : forall b', lang ic (Re.Alt Re.Void b') s <-> lang ic b' s).
  { intros b'. split; intros H; [|now apply L_AltR].
    inv H; [|assumption].
    match goal with V : lang _ Re.Void _ |- _ => now apply lang_Void in V end. }
  assert (Hr : forall a', lang ic (Re.Alt a' Re.Void) s <-> lang ic a' s).
  { intros a'. split; intros H; [|now apply L_AltL].
    inv H; [assumption|].
    match goal with V : lang _ Re.Void _ |- _ => now apply lang_Void in V end. }
  destruct a; destruct b; simpl;
    try reflexivity; try (symmetry; apply Hl); try (symmetry; apply Hr).
Qed.

Lemma lang_Cat_cons (a b : Re.regex) (x : N) (s : str) :
  lang ic (Re.Cat a b) (x :: s) <->
  (exists s1 s2, s = s1 ++ s2 /\ lang ic a (x :: s1) /\ lang ic b s2)
  \/ (lang ic a [] /\ lang ic b (x :: s)).
Proof.
  split.
  - intros H. inversion H as [| | | | |a' b' s0 t Ha Hb [Ea Eb] Es| | | |].
    subst. destruct s0 as [|y s0]; simpl in Es.
    + right. subst. split; assumption.
    + injection Es as -> <-. left. exists s0, t. repeat split; assumption.
  - intros [(s1 & s2 & -> & Ha & Hb) | [Ha Hb]].
    + now apply (L_Cat (s := x :: s1)).
    + now apply (L_Cat (s := [])).
Qed.

Lemma lang_Star_cons (a : Re.regex) (x : N) (s : str) :
  lang ic (Re.Star a) (x :: s) <->
  exists s1 s2, s = s1 ++ s2 /\ lang ic a (x :: s1) /\ lang ic (Re.Star a) s2.
Proof.
  split.
  - intros H. remember (Re.Star a) as r eqn:Hr. remember (x :: s) as u eqn:Hu.
    revert s Hu. induction H; intros s' Hu; try discriminate.
    injection Hr as ->. destruct s as [|y s]; simpl in *.
    + now apply IHlang2.
    + injection Hu as -> <-. exists s, t. repeat split; assumption.
  - intros (s1 & s2 & -> & Ha & Hs). now apply (L_StarS (s := x :: s1)).
Qed.

Lemma lang_deriv (x : N) (r : Re.regex) (s : str) :
  lang ic (Re.deriv ic x r) s <-> lang ic r (x :: s).
Proof.
  revert s. induction r; intros s; simpl.
  - split; intros H; inv H.
  - split; intros H; inv H.
  - destruct (Re.chrMatches ic c x) eqn:Hc; split; intros H.
    + inv H. now constructor.
    + inv H. constructor.
    + inv H.
    + inv H. congruence.
  - destruct (isLineTerminator x) eqn:Hc; split; intros H.
    + inv H.
    + inv H. congruence.
    + inv H. now constructor.
    + inv H. constructor.
  - destruct (isWhiteSpace x) eqn:Hc; split; intros H.
    + inv H. now constructor.
    + inv H. constructor.
    + inv H.
    + inv H. congruence.
  - destruct (isDigit x) eqn:Hc; split; intros H.
    + inv H. now constructor.
    + inv H. constructor.
    + inv H.
    + inv H. congruence.
  - rewrite lang_mkAlt, lang_Cat_cons. split.
    + intros H. inv H.
      * match goal with V : lang _ (Re.mkCat _ _) _ |- _ =>
          apply lang_mkCat in V; inv V end.
        match goal with V : lang _ (Re.deriv _ _ _) ?p, W : lang _ r2 ?q |- _ =>
          left; exists p, q; repeat split; [now apply IHr1 | exact W] end.
      * destruct (Re.nullable r1) eqn:Hn.
        -- right. split; [now apply lang_nil_nullable | now apply IHr2].
        -- match goal with V : lang _ Re.Void _ |- _ =>
             now apply lang_Void in V end.
    + intros [(s1 & s2 & -> & Ha & Hb) | [Ha Hb]].
      * apply L_AltL. apply lang_mkCat. apply L_Cat; [now apply IHr1 | exact Hb].
      * apply L_AltR. apply lang_nil_nullable in Ha. rewrite Ha. now apply IHr2.
  - rewrite lang_mkAlt. split; intros H; inv H;
      solve [ apply L_AltL; now apply IHr1 | apply L_AltR; now apply IHr2 ].
  - rewrite lang_mkCat, lang_Star_cons. split.
    + intros H. inv H.
      match goal with
        V : lang _ (Re.deriv _ _ _) ?p, W : lang _ (Re.Star _) ?q |- _ =>
        exists p, q; repeat split; [now apply IHr | exact W] end.
    + intros (s1 & s2 & -> & Ha & Hs). apply L_Cat; [now apply IHr | exact Hs].
Qed.

Lemma matchHere_lang (toEnd : bool) (s : str) (r : Re.regex) :
  Re.matchHere ic toEnd r s = true <->
  exists p q, s = p ++ q /\ lang ic r p /\ (toEnd = true -> q = []).
Proof.
  revert r. induction s as [|x t IH]; intros r; simpl.
  - rewrite lang_nil_nullable. split.
    + intros H. exists [], []. repeat split; auto.
    + intros (p & q & Hs & Hl & _). symmetry in Hs.
      destruct (app_eq_nil _ _ Hs) as [-> _]. exact Hl.
  - split.
    + intros H. apply orb_prop in H. destruct H as [H|H].
      * apply andb_prop in H. destruct H as [He Hn].
        exists [], (x :: t). repeat split; auto.
        -- now apply lang_nil_nullable.
        -- intros ->. discriminate.
      * apply IH in H. destruct H as (p & q & -> & Hl & Hq).
        exists (x :: p), q. repeat split; auto. now apply lang_deriv.
    + intros (p & q & Hs & Hl & Hq). apply orb_true_intro.
      destruct p as [|y p]; simpl in Hs.
      * left. subst q. destruct toEnd; [now specialize (Hq eq_refl)|].
        simpl. now apply lang_nil_nullable.
      * injection Hs as <- ->. right. apply IH. exists p, q.
        repeat split; auto. now apply lang_deriv.
Qed.

Lemma matchAnywhere_lang (toEnd : bool) (r : Re.regex) (s : str) :
  Re.matchAnywhere ic toEnd r s = true <->
  exists a p q, s = a ++ p ++ q /\ lang ic r p /\ (toEnd = true -> q = []).
Proof.
  induction s as [|x t IH]; simpl.
  - rewrite orb_false_r, lang_nil_nullable. split.
    + intros H. exists [], [], []. repeat split; auto.
    + intros (a & p & q & Hs & Hl & _). symmetry in Hs.
      destruct (app_eq_nil _ _ Hs) as [_ H2].
      destruct (app_eq_nil _ _ H2) as [-> _]. exact Hl.
  - split.
    + intros H. apply orb_prop in H. destruct H as [H|H].
      * apply orb_prop in H.
        assert (Hm : Re.matchHere ic toEnd r (x :: t) = true)
          by (simpl; apply orb_true_intro; destruct H; auto).
        apply matchHere_lang in Hm. destruct Hm as (p & q & Hs & Hl & Hq).
        exists [], p, q. repeat split; auto.
      * apply IH in H. destruct H as (a & p & q & -> & Hl & Hq).
        exists (x :: a), p, q. repeat split; auto.
    + intros (a & p & q & Hs & Hl & Hq). destruct a as [|y a]; simpl in Hs.
      * assert (Hm : Re.matchHere ic toEnd r (x :: t) = true)
          by (apply matchHere_lang; exists p, q; repeat split; auto).
        simpl in Hm. rewrite Hm. reflexivity.
      * injection Hs as <- ->. apply orb_true_intro. right.
        apply IH. exists a, p, q. repeat split; auto.
Qed.

(** An unanchored pattern tests true exactly on the strings that hold a
    substring of its language. *)
Lemma test_lang (r : Re.regex) (s : str) :
  Re.test (Re.mkRegExp r ic false false) s = true <->
  exists a p q, s = a ++ p ++ q /\ lang ic r p.
Proof.
  unfold Re.test. simpl. rewrite matchAnywhere_lang. split.
  - intros (a & p & q & Hs & Hl & _). now exists a, p, q.
  - intros (a & p & q & Hs & Hl). exists a, p, q. repeat split; auto.
    discriminate.
Qed.

Lemma lang_Lit (w m : str) :
  lang ic (Re.Lit w) m <-> Forall2 (fun p x => Re.chrMatches ic p x = true) w m.
Proof.
  revert m. induction w as [|c t IH]; intros m.
  - simpl. rewrite lang_Eps. split; [intros ->; constructor | intros H; now inv H].
  - destruct t as [|c' t'].
    + simpl. split; intros H.
      * inv H. constructor; [assumption | constructor].
      * inv H. match goal with V : Forall2 _ [] _ |- _ => inv V end.
        now constructor.
    + change (Re.Lit (c :: c' :: t')) with (Re.Cat (Re.Chr c) (Re.Lit (c' :: t'))).
      split; intros H.
      * inv H. match goal with V : lang _ (Re.Chr _) _ |- _ => inv V end.
        simpl. constructor; [assumption | now apply IH].
      * inv H.
        match goal with V : Re.chrMatches _ _ ?y = true |- _ =>
          apply (L_Cat (s := [y])); [now constructor | now apply IH] end.
Qed.

Lemma test_word (w : string) (s : str) :
  Re.test (Re.mkRegExp (Re.word w) ic false false) s = true <->
  containsWord ic (js w) s.
Proof.
  rewrite test_lang. unfold containsWord, Re.word.
  split; intros (a & p & q & Hs & Hl); exists a, p, q; split; auto;
    now apply lang_Lit.
Qed.

Lemma lang_anyOf (ws : list string) (m : str) :
  lang ic (Re.anyOf ws) m <->
  exists w, In w ws /\ Forall2 (fun p x => Re.chrMatches ic p x = true) (js w) m.
Proof.
  induction ws as [|w rest IH].
  - simpl. split; [intros H; now apply lang_Void in H | intros (w & [] & _)].
  - destruct rest as [|w' rest'].
    + simpl. unfold Re.word. rewrite lang_Lit. split.
      * intros H. exists w. split; [now left | exact H].
      * intros (w0 & [<-|[]] & H). exact H.
    + change (Re.anyOf (w :: w' :: rest'))
        with (Re.Alt (Re.word w) (Re.anyOf (w' :: rest'))).
      split.
      * intros H. inv H.
        -- exists w. split; [now left | now apply lang_Lit].
        -- match goal with V : lang _ _ _ |- _ =>
             apply IH in V; destruct V as (w0 & Hin & H0) end.
           exists w0. split; [now right | exact H0].
      * intros (w0 & [<-|Hin] & H0).
        -- apply L_AltL. now apply lang_Lit.
        -- apply L_AltR. apply IH. now exists w0.
Qed.

Lemma test_anyOf (ws : list string) (s : str) :
  Re.test (Re.mkRegExp (Re.anyOf ws) ic false false) s = true <->
  exists w, In w ws /\ containsWord ic (js w) s.
Proof.
  rewrite test_lang. unfold containsWord. split.
  - intros (a & p & q & Hs & Hl). apply lang_anyOf in Hl.
    destruct Hl as (w & Hin & Hf). exists w. split; auto. now exists a, p, q.
  - intros (w & Hin & a & p & q & Hs & Hf). exists a, p, q. split; auto.
    apply lang_anyOf. now exists w.
Qed.

(** A pattern that ends in a word tests true only where the word alone
    does; so does a pattern that begins with it. *)
Lemma test_ends_in (pre r : Re.regex) (s : str) :
  Re.test (Re.mkRegExp (Re.Cat pre r) ic false false) s = true ->
  Re.test (Re.mkRegExp r ic false false) s = true.
Proof.
  rewrite !test_lang. intros (a & p & q & -> & Hl).
  inversion Hl as [| | | | |a' b' s0 t Ha Hb [Ea Eb] Es| | | |]. subst.
  exists (a ++ s0), t, q. split; [|assumption].
  now rewrite <- !app_assoc.
Qed.

Lemma test_begins_with (r post : Re.regex) (s : str) :
  Re.test (Re.mkRegExp (Re.Cat r post) ic false false) s = true ->
  Re.test (Re.mkRegExp r ic false false) s = true.
Proof.
  rewrite !test_lang. intros (a & p & q & -> & Hl).
  inversion Hl as [| | | | |a' b' s0 t Ha Hb [Ea Eb] Es| | | |]. subst.
  exists a, s0, (t ++ q). split; [|assumption].
  now rewrite <- !app_assoc.
Qed.

End RegexMeaning.

(** *** What the pattern tables accept *)

Lemma test_next_page (s : str) :
  Re.test (Re.ci (Re.Cat (Re.word "next")
                         (Re.Cat (Re.Star Re.Space) (Re.Opt (Re.word "page"))))) s
  = true <->
  containsWord true (js "next") s.
Proof.
  unfold Re.ci. split.
  - intros H. apply test_begins_with in H. now apply test_word.
  - intros (a & m & b & Hs & Hf). apply test_lang. exists a, m, b.
    split; [exact Hs|]. rewrite <- (app_nil_r m). apply L_Cat.
    + now apply lang_Lit.
    + change (@nil N) with (@nil N ++ @nil N). apply L_Cat.
      * apply L_Star0.
      * apply L_AltR. constructor.
Qed.

Ltac pick_in := cbn [In]; solve [repeat (first [left; reflexivity | right])].

(** X1.  The criterion of the text matcher holds exactly when the
    extracted text of the element holds one of the words of the pattern
    table as a substring, anywhere and also inside a longer word; letter
    case is ignored for the words and the optional [page] after [next]
    changes nothing. *)
Theorem X1_text_criterion_is_word_containment (d : Document) (e : Element) :
  textCriterion d e = true <->
  exists icw, In icw textWords
              /\ containsWord (fst icw) (js (snd icw)) (getElementText (Some e)).
Proof.
  unfold textCriterion. rewrite existsb_exists.
  set (s := getElementText (Some e)). split.
  - intros (p & Hin & Ht). unfold textPatterns in Hin. cbn [In] in Hin.
    repeat (destruct Hin as [<-|Hin]); try destruct Hin.
    + apply test_next_page in Ht. exists (true, "next"%string).
      split; [unfold textWords; pick_in | exact Ht].
    + apply test_word in Ht. eexists (true, _).
      split; [|exact Ht]. unfold textWords; pick_in.
    + apply test_word in Ht. eexists (true, _).
      split; [|exact Ht]. unfold textWords; pick_in.
    + apply test_word in Ht. eexists (true, _).
      split; [|exact Ht]. unfold textWords; pick_in.
    + apply test_anyOf in Ht. destruct Ht as (w & Hw & Hc). cbn [In] in Hw.
      repeat (destruct Hw as [<-|Hw]); try destruct Hw;
        (eexists (true, _); split; [|exact Hc]; unfold textWords; pick_in).
    + apply test_word in Ht. eexists (true, _).
      split; [|exact Ht]. unfold textWords; pick_in.
    + apply test_anyOf in Ht. destruct Ht as (w & Hw & Hc). cbn [In] in Hw.
      repeat (destruct Hw as [<-|Hw]); try destruct Hw;
        (eexists (true, _); split; [|exact Hc]; unfold textWords; pick_in).
    + apply test_word in Ht. eexists (true, _).
      split; [|exact Ht]. unfold textWords; pick_in.
    + apply test_word in Ht. eexists (true, _).
      split; [|exact Ht]. unfold textWords; pick_in.
    + apply test_word in Ht. eexists (true, _).
      split; [|exact Ht]. unfold textWords; pick_in.
    + apply test_word in Ht. eexists (true, _).
      split; [|exact Ht]. unfold textWords; pick_in.
    + apply test_anyOf in Ht. destruct Ht as (w & Hw & Hc). cbn [In] in Hw.
      repeat (destruct Hw as [<-|Hw]); try destruct Hw;
        (eexists (false, _); split; [|exact Hc]; unfold textWords; pick_in).
  - intros ([ic w] & Hin & Hc). unfold textWords in Hin. cbn [In] in Hin.
    cbn [fst snd] in Hc.
    repeat (destruct Hin as [Heq|Hin]); try destruct Hin;
      injection Heq as <- <-;
      first
        [ match type of Hc with containsWord ?i (js ?v) _ =>
            exists (Re.mkRegExp (Re.word v) i false false) end;
          split; [unfold textPatterns; pick_in | now apply test_word]
        | eexists; split;
          [ unfold textPatterns; cbn [In]; left; reflexivity
          | now apply test_next_page ]
        | exists (Re.ci (Re.anyOf ["次へ"; "次のページ"]%string));
          split; [unfold textPatterns; pick_in
                 | apply test_anyOf; eexists; split; [|exact Hc]; pick_in]
        | exists (Re.ci (Re.anyOf ["下一页"; "下一頁"]%string));
          split; [unfold textPatterns; pick_in
                 | apply test_anyOf; eexists; split; [|exact Hc]; pick_in]
        | exists (Re.cs (Re.anyOf ["→"; "›"; "»"; "⟩"; "⇨"; "➔"; "➜"; "➡"]%string));
          split; [unfold textPatterns; pick_in
                 | apply test_anyOf; eexists; split; [|exact Hc]; pick_in] ].
Qed.

Lemma find_all_false (A : Type) (f : A -> bool) (l : list A) :
  (forall x, In x l -> f x = false) -> find f l = None.
Proof.
  intros H. induction l as [|y l IH]; [reflexivity|]. simpl.
  rewrite (H y (or_introl eq_refl)). apply IH. intros x Hx. apply H. now right.
Qed.

(** A pattern that tests true only where another does finds nothing once
    the other has found nothing. *)
Lemma classElementLoop_subsumed (p q : Re.RegExp) (elements : list Element) :
  (forall s, Re.test p s = true -> Re.test q s = true) ->
  classElementLoop q elements = None ->
  classElementLoop p elements = None.
Proof.
  intros Hpq Hq. rewrite classElementLoop_eq in *.
  destruct (find (gated (fun e => Re.test q (classIdOf e))) elements) eqn:Hf;
    [discriminate|].
  rewrite find_all_false; [reflexivity|].
  intros x Hx. pose proof (find_none _ _ Hf x Hx) as Hg. unfold gated in *.
  destruct (Re.test p (classIdOf x)) eqn:Hp; [|reflexivity].
  rewrite (Hpq _ Hp) in Hg. exact Hg.
Qed.

Lemma ends_in_next (pre : Re.regex) (s : str) :
  Re.test (Re.ci (Re.Cat pre (Re.Cat (Re.Star Re.Dot) (Re.word "next")))) s = true ->
  Re.test nextRe s = true.
Proof.
  unfold Re.ci, nextRe. intros H.
  apply test_ends_in in H. now apply test_ends_in in H.
Qed.

(** X2.  Two of the six class/id patterns never decide: whatever
    [/pagination.*next/i] or [/nav.*next/i] matches, [/next/i], tried
    first, matches too.  [findByClassId] returns the same candidate with
    the two patterns removed. *)
Theorem X2_two_class_id_patterns_never_decide (d : Document) :
  (forall s p, In p classIdPatterns -> ~ In p decidingClassIdPatterns ->
     Re.test p s = true -> Re.test nextRe s = true)
  /\ findByClassId d = classPatternLoop d decidingClassIdPatterns.
Proof.
  split.
  - intros s p Hin Hout Ht. unfold classIdPatterns in Hin. cbn [In] in Hin.
    unfold decidingClassIdPatterns in Hout. cbn [In] in Hout.
    repeat (destruct Hin as [<-|Hin]); try destruct Hin;
      try (now apply ends_in_next in Ht); exfalso; apply Hout; tauto.
  - unfold findByClassId, classIdPatterns, decidingClassIdPatterns.
    cbn [classPatternLoop].
    set (els := querySelectorAll d clickableSelector).
    destruct (classElementLoop (Re.ci (Re.word "next")) els) eqn:H1;
      [reflexivity|].
    rewrite (@classElementLoop_subsumed _ nextRe els
               (fun s => @ends_in_next (Re.word "pagination") s) H1).
    rewrite (@classElementLoop_subsumed _ nextRe els
               (fun s => @ends_in_next (Re.word "nav") s) H1).
    reflexivity.
Qed.

Lemma containsWord_suffix (ic : bool) (u w s : str) :
  containsWord ic (u ++ w) s -> containsWord ic w s.
Proof.
  intros (a & m & b & -> & Hf).
  apply Forall2_app_inv_l in Hf. destruct Hf as (m1 & m2 & H1 & H2 & ->).
  exists (a ++ m1), m2, b. split; [|exact H2].
  now rewrite <- !app_assoc.
Qed.

Lemma word_ending_in_next (u : string) (s : str) :
  js (u ++ "next") = js u ++ js "next" ->
  Re.test (Re.ci (Re.word (u ++ "next"))) s = true ->
  Re.test nextRe s = true.
Proof.
  intros Hu Ht. unfold Re.ci in Ht. apply test_word in Ht. rewrite Hu in Ht.
  apply containsWord_suffix in Ht. unfold nextRe, Re.ci. now apply test_word.
Qed.

Lemma ariaCriterion_next (d : Document) (e : Element) :
  ariaCriterion d e = Re.test nextRe (ariaLabelText d e).
Proof.
  unfold ariaCriterion, ariaPatterns. cbn [existsb].
  fold nextRe. set (s := ariaLabelText d e).
  pose proof (@word_ending_in_next "go to " s eq_refl) as H1.
  pose proof (@word_ending_in_next "navigate to " s eq_refl) as H2.
  change ("go to " ++ "next")%string with "go to next"%string in H1.
  change ("navigate to " ++ "next")%string with "navigate to next"%string in H2.
  destruct (Re.test nextRe s); [reflexivity|]. simpl.
  destruct (Re.test (Re.ci (Re.word "go to next")) s);
    [now specialize (H1 eq_refl)|].
  destruct (Re.test (Re.ci (Re.word "navigate to next")) s);
    [now specialize (H2 eq_refl)|].
  reflexivity.
Qed.

(** X3.  The aria-label matcher goes by [/next/i] alone: its other two
    patterns, [/go to next/i] and [/navigate to next/i], match only
    labels that [/next/i] matches.  Its candidate is the first element in
    document order, among those with an aria-label or aria-labelledby
    attribute, whose label text holds "next" in any letter case and which
    passes the validity gate. *)
Theorem X3_aria_label_goes_by_next_alone (d : Document) :
  (forall e, ariaCriterion d e = true <->
             containsWord true (js "next") (ariaLabelText d e))
  /\ (forall c,
        findByAriaLabel d = Some c <->
        exists before e after,
          querySelectorAll d ariaSelector = before ++ e :: after
          /\ (forall x, In x before ->
                Re.test nextRe (ariaLabelText d x)
                && isValidNextPageElement (Some x) = false)
          /\ Re.test nextRe (ariaLabelText d e) = true
          /\ isValidNextPageElement (Some e) = true
          /\ c = heuristicCandidate e AriaLabel 0.85).
Proof.
  split.
  - intros e. rewrite ariaCriterion_next. unfold nextRe, Re.ci.
    apply test_word.
  - intros c. unfold findByAriaLabel. rewrite ariaElementLoop_eq. split.
    + destruct (find _ _) as [e|] eqn:Hf; [|discriminate].
      intros [= <-]. destruct (find_split _ _ Hf) as (bf & af & Hq & Hb & He).
      unfold gated in He. rewrite ariaCriterion_next in He.
      apply andb_prop in He. destruct He as [Ht Hv].
      exists bf, e, af. repeat split; auto.
      intros x Hx. specialize (Hb x Hx). unfold gated in Hb.
      now rewrite ariaCriterion_next in Hb.
    + intros (bf & e & af & Hq & Hb & Ht & Hv & ->).
      rewrite Hq, find_first; [reflexivity | |].
      * intros x Hx. unfold gated. rewrite ariaCriterion_next. now apply Hb.
      * unfold gated. now rewrite ariaCriterion_next, Ht, Hv.
Qed.

(** *** URLs, candidates and what navigation does with them *)

Lemma assignedLiteral_nonempty (rest u : str) :
  Re.assignedLiteral rest = Some u -> u <> [].
Proof.
  unfold Re.assignedLiteral. intros H.
  repeat match type of H with
         | context [match ?x with _ => _ end] => destruct x; try discriminate
         end.
  injection H as <-. discriminate.
Qed.

Lemma locationAssignAt_nonempty (s u : str) :
  Re.locationAssignAt s = Some u -> u <> [].
Proof.
  unfold Re.locationAssignAt.
  destruct (stripPrefix (js "location.href") s) as [r1|]; cbv beta iota.
  - destruct (Re.assignedLiteral r1) as [u1|] eqn:H1.
    + intros [= <-]. eapply assignedLiteral_nonempty; eassumption.
    + destruct (stripPrefix (js "window.location") s) as [r2|];
        cbv beta iota; [|discriminate].
      intros H. eapply assignedLiteral_nonempty; eassumption.
  - destruct (stripPrefix (js "window.location") s) as [r2|];
      cbv beta iota; [|discriminate].
    intros H. eapply assignedLiteral_nonempty; eassumption.
Qed.

Lemma locationAssign_nonempty (s u : str) :
  Re.locationAssign s = Some u -> u <> [].
Proof.
  induction s as [|c t IH]; cbn [Re.locationAssign]; intros H.
  - destruct (Re.locationAssignAt []) eqn:Ha; [|discriminate].
    injection H as ->. eapply locationAssignAt_nonempty; eassumption.
  - destruct (Re.locationAssignAt (c :: t)) eqn:Ha; [|now apply IH].
    injection H as ->. eapply locationAssignAt_nonempty; eassumption.
Qed.

Lemma truthy_nonempty (o : option str) :
  truthy o = true <-> exists c t, o = Some (c :: t).
Proof.
  destruct o as [[|c t]|]; simpl; split; try discriminate;
    try (intros (c' & t' & H); discriminate).
  - intros _. now exists c, t.
  - reflexivity.
Qed.

Lemma getElementUrl_nonempty (el : option Element) (u : str) :
  getElementUrl el = Some u -> u <> [].
Proof.
  unfold getElementUrl. destruct el as [e|]; [|discriminate].
  destruct (truthy (hrefProp (props e))) eqn:Hh.
  { intros H. apply truthy_nonempty in Hh. destruct Hh as (c & t & Hh).
    rewrite Hh in H. injection H as <-. discriminate. }
  cbv zeta.
  destruct (truthy (orElse _ (getAttribute e "data-link"))) eqn:Hd.
  { intros H. apply truthy_nonempty in Hd. destruct Hd as (c & t & Hd).
    rewrite Hd in H. injection H as <-. discriminate. }
  destruct (truthy (getAttribute e "onclick")); [|discriminate].
  destruct (Re.locationAssign _) eqn:Hl; [|discriminate].
  intros [= <-]. eapply locationAssign_nonempty; eassumption.
Qed.

(** X4.  [getElementUrl] returns the first usable value in the order
    href property, data-href, data-url, data-link, URL literal assigned to
    the location in the onclick handler; it returns null for a null
    element and when nothing is usable, and never an empty string. *)
Theorem X4_getElementUrl_first_usable_source (e : Element) :
  getElementUrl (Some e)
  = firstTruthy [ hrefProp (props e);
                  getAttribute e "data-href";
                  getAttribute e "data-url";
                  getAttribute e "data-link";
                  onclickLiteral e ]
  /\ (forall el u, getElementUrl el = Some u -> u <> [])
  /\ getElementUrl None = None.
Proof.
  split; [|split; [exact getElementUrl_nonempty | reflexivity]].
  unfold getElementUrl, firstTruthy, onclickLiteral, orElse.
  destruct (truthy (hrefProp (props e))); [reflexivity|].
  destruct (truthy (getAttribute e "data-href")) eqn:H1;
    destruct (truthy (getAttribute e "data-url")) eqn:H2;
    destruct (truthy (getAttribute e "data-link")) eqn:H3;
    cbv zeta; rewrite ?H1, ?H2, ?H3; try reflexivity.
  destruct (truthy (getAttribute e "onclick")); [|reflexivity].
  destruct (Re.locationAssign _) as [u|] eqn:Hl; [|reflexivity].
  pose proof (locationAssign_nonempty _ Hl) as Hu.
  destruct u; [congruence | reflexivity].
Qed.

Lemma heuristicCandidate_shape (e : Element) (ty : Strategy) (q : Q) :
  element (heuristicCandidate e ty q) = Some e
  /\ isLoadMore (heuristicCandidate e ty q) = None
  /\ ((url (heuristicCandidate e ty q) = None
       /\ clickOnly (heuristicCandidate e ty q) = Some true)
      \/ (exists u, url (heuristicCandidate e ty q) = Some u /\ u <> []
                    /\ truthy (url (heuristicCandidate e ty q)) = true
                    /\ clickOnly (heuristicCandidate e ty q) = Some false)).
Proof.
  unfold heuristicCandidate.
  destruct (getElementUrl (Some e)) as [[|c t]|] eqn:Hu; simpl;
    repeat split; auto.
  right. exists (c :: t). repeat split; auto. discriminate.
Qed.

Lemma heuristicMatch_candidate (d : Document) (c : Candidate) :
  heuristicMatch d c ->
  exists e ty q, c = heuristicCandidate e ty q.
Proof.
  intros [H | [H | H]].
  - unfold findByTextContent in H. rewrite (textLinkLoop_eq d) in H.
    destruct (find _ _) as [e|]; [|discriminate]. injection H as <-.
    now exists e, TextContent, 0.9.
  - apply classPatternLoop_some in H.
    destruct H as (p & e & _ & _ & _ & _ & ->). now exists e, ClassId, 0.8.
  - unfold findByAriaLabel in H. rewrite ariaElementLoop_eq in H.
    destruct (find _ _) as [e|]; [|discriminate]. injection H as <-.
    now exists e, AriaLabel, 0.85.
Qed.

(** X5.  On every candidate of the text, class/id and aria-label matchers
    the two fields agree: either the url is null and clickOnly is true, or
    the url is a non-empty string and clickOnly is false. *)
Theorem X5_clickOnly_exactly_when_no_url (d : Document) (c : Candidate) :
  heuristicMatch d c ->
  (url c = None /\ clickOnly c = Some true)
  \/ (exists u, url c = Some u /\ u <> [] /\ clickOnly c = Some false).
Proof.
  intros H. destruct (heuristicMatch_candidate H) as (e & ty & q & ->).
  destruct (heuristicCandidate_shape e ty q) as (_ & _ & [Hn | Hs]).
  - left. exact Hn.
  - right. destruct Hs as (u & Hu & Hne & _ & Hc). now exists u.
Qed.

Lemma X5_witness_spa_control :
  (url (heuristicCandidate spaNext TextContent 0.9) = None
   /\ clickOnly (heuristicCandidate spaNext TextContent 0.9) = Some true)
  \/ (exists u, url (heuristicCandidate spaNext TextContent 0.9) = Some u
                /\ u <> []
                /\ clickOnly (heuristicCandidate spaNext TextContent 0.9)
                   = Some false).
Proof.
  apply (@X5_clickOnly_exactly_when_no_url docSpa).
  left. vm_compute. reflexivity.
Defined.

(** X10.  For a candidate of the text, class/id or aria-label matcher,
    clickOnly tells what [navigateToNextPage] does: with clickOnly true it
    clicks the element and waits (false, the click done and the error
    logged, when the wait raises for want of a body), with clickOnly false
    it assigns the url to the location and does not click. *)
Theorem X10_clickOnly_predicts_the_action
        (d : Document) (c : Candidate) (w : World) (fuel : nat)
        (log : list Event) :
  heuristicMatch d c ->
  exists e,
    element c = Some e
    /\ navigateToNextPage w fuel (Some c) log
       = if isTrue (clickOnly c) then clickOutcome w fuel e log
         else navigationOutcome w (orEmpty (url c)) log.
Proof.
  intros H. destruct (heuristicMatch_candidate H) as (e & ty & q & ->).
  destruct (heuristicCandidate_shape e ty q) as (He & Hl & [[Hu Hc] | Hs]).
  - exists e. split; [exact He|]. rewrite Hc. cbn [isTrue].
    unfold clickOutcome. apply (@navigate_click_path w fuel _ e log He).
    right. now rewrite Hu.
  - destruct Hs as (u & Hu & Hne & Ht & Hc). exists e. split; [exact He|].
    rewrite Hc. cbn [isTrue]. unfold navigationOutcome.
    apply (@navigate_url_path w fuel _ e log He); [|exact Ht].
    now rewrite Hl.
Qed.

Lemma X10_witness_spa_control :
  exists e,
    element (heuristicCandidate spaNext TextContent 0.9) = Some e
    /\ navigateToNextPage stillWorld 60
         (Some (heuristicCandidate spaNext TextContent 0.9)) []
       = if isTrue (clickOnly (heuristicCandidate spaNext TextContent 0.9))
         then clickOutcome stillWorld 60 e []
         else navigationOutcome stillWorld
                (orEmpty (url (heuristicCandidate spaNext TextContent 0.9))) [].
Proof.
  apply (@X10_clickOnly_predicts_the_action docSpa).
  left. vm_compute. reflexivity.
Defined.

Section LoadMoreNavigation.
Context {host : Host}.

(** X9.  A candidate of the infinite-scroll matcher always carries a url,
    and [navigateToNextPage] never assigns it to the location: it clicks
    the element and waits, and its result is that of the click path (true
    after the wait; false with the error logged when the click raises or,
    the click done, when the wait raises for want of a body). *)
Theorem X9_load_more_is_clicked_never_navigated
        (d : Document) (c : Candidate) (w : World) (fuel : nat)
        (log : list Event) :
  findInfiniteScrollButton d = Some c ->
  exists b u,
    element c = Some b /\ url c = Some u
    /\ navigateToNextPage w fuel (Some c) log = clickOutcome w fuel b log.
Proof.
  unfold findInfiniteScrollButton. rewrite buttonLoop_eq.
  destruct (find _ _) as [b|]; [|discriminate]. intros [= <-].
  assert (Hu : exists u, url (loadMoreCandidate d b) = Some u).
  { unfold loadMoreCandidate, orElse. cbn [url].
    destruct (truthy (getElementUrl (Some b))) eqn:Ht.
    - apply truthy_nonempty in Ht. destruct Ht as (x & t & ->). eauto.
    - eauto. }
  destruct Hu as [u Hu]. exists b, u. repeat split; auto.
  unfold clickOutcome.
  apply (@navigate_click_path w fuel (loadMoreCandidate d b) b log eq_refl).
  left. reflexivity.
Qed.

End LoadMoreNavigation.

Lemma X9_witness_load_more :
  exists b u,
    element (loadMoreCandidate docLoadMore loadMore) = Some b
    /\ url (loadMoreCandidate docLoadMore loadMore) = Some u
    /\ navigateToNextPage stillWorld 60
         (Some (loadMoreCandidate docLoadMore loadMore)) []
       = clickOutcome stillWorld 60 b [].
Proof.
  apply (@X9_load_more_is_clicked_never_navigated latin1Host docLoadMore).
  vm_compute. reflexivity.
Defined.

(** *** Extracted text *)

Lemma trimStart_head (s : str) :
  match trimStart s with
  | [] => True
  | c :: _ => isWhiteSpace c = false
  end.
Proof.
  induction s as [|c t IH]; simpl; [exact I|].
  destruct (isWhiteSpace c) eqn:Hc; [exact IH | exact Hc].
Qed.

Lemma trimStart_snoc (l : str) (c : N) :
  isWhiteSpace c = false -> exists v, trimStart (l ++ [c]) = v ++ [c].
Proof.
  intros Hc. induction l as [|x l IH]; simpl.
  - rewrite Hc. now exists [].
  - destruct (isWhiteSpace x); [exact IH | now exists (x :: l)].
Qed.

Lemma trim_isTrimmed (s : str) : isTrimmed (trim s).
Proof.
  unfold trim, isTrimmed. pose proof (trimStart_head s) as Hh.
  destruct (trimStart s) as [|c r]; [now left|]. right.
  cbn [rev]. destruct (trimStart_snoc (rev r) c Hh) as [v Hv].
  pose proof (trimStart_head (rev r ++ [c])) as Hu. rewrite Hv in *. split.
  - exists c, (rev v). split; [|exact Hh]. now rewrite rev_app_distr.
  - destruct (v ++ [c]) as [|h u'] eqn:Heq.
    + destruct v; discriminate.
    + exists (rev u'), h. split; [reflexivity | exact Hu].
Qed.

(** X7.  The text [getElementText] extracts is empty or neither starts nor
    ends with white space, although the text content and the title, alt
    and value attributes are joined with spaces; for a null element, and
    for an element with no text and none of the three attributes, it is
    the empty string. *)
Theorem X7_extracted_text_is_trimmed (el : option Element) :
  isTrimmed (getElementText el)
  /\ getElementText None = []
  /\ (forall e,
        textContent e = [] -> innerTextProp (props e) = [] ->
        getAttribute e "title" = None -> getAttribute e "alt" = None ->
        getAttribute e "value" = None ->
        getElementText (Some e) = []).
Proof.
  split; [|split; [reflexivity|]].
  - unfold getElementText. destruct el as [e|]; [apply trim_isTrimmed | now left].
  - intros e Ht Hi H1 H2 H3. unfold getElementText.
    rewrite Ht, Hi, H1, H2, H3. reflexivity.
Qed.

(** *** How long the wait lasts *)




(** *** The infinite-scroll markers *)

Lemma existsb_orb (A : Type) (f g : A -> bool) (l : list A) :
  existsb (fun x => f x || g x) l = existsb f l || existsb g l.
Proof.
  induction l as [|x l IH]; simpl; [reflexivity|]. rewrite IH.
  destruct (f x), (g x), (existsb f l), (existsb g l); reflexivity.
Qed.

Lemma querySelector_simple (d : Document) (s : simple) :
  match querySelector d [[[s]]] with Some _ => true | None => false end
  = existsb (fun e => matchesSimple e s) (allElements d).
Proof.
  unfold querySelector, querySelectorAll, allElements.
  induction (walk [] (documentElement d)) as [|[anc e] l IH];
    [reflexivity|].
  cbn [filter map existsb snd].
  assert (Hm : matchesSelector [[[s]]] (anc, e) = matchesSimple e s).
  { unfold matchesSelector, matchesComplex, matchesCompound. simpl.
    now rewrite !andb_true_r, orb_false_r. }
  rewrite Hm. destruct (matchesSimple e s); [reflexivity | exact IH].
Qed.

(** X11.  [detectInfiniteScroll] is true exactly when some element of the
    document has a data-infinite-scroll attribute, the class
    infinite-scroll or a data-auto-pager attribute; the text of buttons
    plays no part. *)
Theorem X11_detectInfiniteScroll_is_marker_presence (d : Document) :
  detectInfiniteScroll d = existsb hasScrollMarker (allElements d).
Proof.
  unfold detectInfiniteScroll, infiniteScrollMarkers, hasScrollMarker.
  cbn [existsb]. rewrite !querySelector_simple, !existsb_orb.
  cbn [matchesSimple]. now rewrite orb_false_r, orb_assoc.
Qed.

(** *** The last page *)

Lemma numberedInContainer_end (k : Element) :
  noCurrentLink k \/ currentLinkIsLast k -> numberedInContainer k = None.
Proof.
  unfold numberedInContainer.
  intros [Hn | (before & cur & Hl & Hb & Hc)].
  - rewrite (findIndex_none _ _ Hn). reflexivity.
  - rewrite Hl, (findIndex_first _ _ _ _ Hb Hc), length_app. cbn [List.length].
    replace (Z.of_nat (List.length before)
             <? Z.of_nat (List.length before + 1) - 1)%Z with false.
    + now rewrite andb_false_r.
    + symmetry. apply Z.ltb_ge. lia.
Qed.

(** X13.  On the last page the numbered-pagination matcher finds nothing:
    when, in every pagination container the selectors reach, no link is
    current or the first current link is the last link,
    [findNumberedPagination] returns null. *)
Theorem X13_numbered_pagination_ends_on_the_last_page (d : Document) :
  (forall sel k, In sel paginationSelectors -> querySelector d sel = Some k ->
     noCurrentLink k \/ currentLinkIsLast k) ->
  findNumberedPagination d = None.
Proof.
  intros H. destruct (findNumberedPagination d) as [c|] eqn:Hc; [|reflexivity].
  unfold findNumberedPagination in Hc. apply numberedLoop_iff in Hc.
  destruct Hc as (pre & sel & post & Hs & _ & Hr).
  unfold containerResult in Hr.
  destruct (querySelector d sel) as [k|] eqn:Hq; [|discriminate].
  rewrite (numberedInContainer_end (H sel k ltac:(rewrite Hs; apply in_elt) Hq)) in Hr.
  discriminate.
Qed.

Lemma X13_witness_last_of_three :
  findNumberedPagination docLastPage = None.
Proof.
  apply X13_numbered_pagination_ends_on_the_last_page.
  intros sel k Hin Hq. right.
  unfold paginationSelectors in Hin. cbn [In] in Hin.
  repeat (destruct Hin as [<-|Hin]); try destruct Hin;
    vm_compute in Hq; try discriminate;
    injection Hq as <-;
    (exists [lastOne; lastTwo], lastThree; split; [vm_compute; reflexivity|];
     split; [|vm_compute; reflexivity];
     intros x Hx; cbn [In] in Hx;
     repeat (destruct Hx as [<-|Hx]); try destruct Hx; vm_compute; reflexivity).
Defined.

(** *** Where candidates come from *)

Lemma depth_child (e c : Element) :
  In (inr c) (childNodes e) -> (depth c < depth e)%nat.
Proof.
  destruct e as [t a p kids]. cbn [childNodes depth].
  induction kids as [|n kids IH]; intros Hin; [destruct Hin|].
  cbn [fold_right]. destruct Hin as [->|Hin].
  - lia.
  - specialize (IH Hin). lia.
Qed.

Lemma walk_unfold (anc : list Element) (e : Element) :
  walk anc e
  = (anc, e) :: flat_map (fun n => match n with
                                   | inl _ => []
                                   | inr c => walk (e :: anc) c
                                   end) (childNodes e).
Proof. destruct e. reflexivity. Qed.

Lemma walk_elements_any_ancestors (n : nat) :
  forall e a b, (depth e <= n)%nat -> map snd (walk a e) = map snd (walk b e).
Proof.
  induction n as [|n IH]; intros e a b Hd.
  - destruct e. simpl in Hd. lia.
  - rewrite (walk_unfold a), (walk_unfold b). cbn [map snd]. f_equal.
    pose proof (depth_child e) as Hc.
    induction (childNodes e) as [|k kids IHk]; [reflexivity|].
    cbn [flat_map]. rewrite !map_app. f_equal.
    + destruct k as [|c]; [reflexivity|]. apply IH.
      specialize (Hc c (or_introl eq_refl)). lia.
    + apply IHk. intros c Hin. apply Hc. now right.
Qed.

Lemma walk_subtree (n : nat) :
  forall root a anc e x,
    (depth root <= n)%nat ->
    In (anc, e) (walk a root) ->
    In x (map snd (walk [] e)) ->
    In x (map snd (walk a root)).
Proof.
  induction n as [|n IH]; intros root a anc e x Hd Hin Hx.
  - destruct root. simpl in Hd. lia.
  - rewrite walk_unfold in Hin. destruct Hin as [Heq|Hin].
    + injection Heq as <- <-.
      now rewrite (walk_elements_any_ancestors (n := S n) root a [] Hd).
    + rewrite walk_unfold. cbn [map snd]. right.
      apply in_flat_map in Hin. destruct Hin as (k & Hk & Hin).
      destruct k as [|c]; [destruct Hin|].
      apply in_map_iff.
      assert (Hxc : In x (map snd (walk (root :: a) c))).
      { apply (IH c (root :: a) anc e x); auto.
        pose proof (depth_child root c Hk). lia. }
      apply in_map_iff in Hxc. destruct Hxc as (y & Hy & Hiny).
      exists y. split; [exact Hy|]. apply in_flat_map. now exists (inr c).
Qed.

Lemma querySelectorAll_in_document (d : Document) (sel : selector) (e : Element) :
  In e (querySelectorAll d sel) -> In e (allElements d).
Proof.
  unfold querySelectorAll, allElements. intros H.
  apply in_map_iff in H. destruct H as (y & Hy & Hin).
  apply filter_In in Hin. apply in_map_iff. exists y. tauto.
Qed.

Lemma querySelector_in_document (d : Document) (sel : selector) (e : Element) :
  querySelector d sel = Some e -> In e (allElements d).
Proof.
  unfold querySelector. intros H. apply (querySelectorAll_in_document d sel).
  destruct (querySelectorAll d sel); [discriminate|].
  injection H as ->. now left.
Qed.

Lemma container_links_in_document (d : Document) (k x : Element) (sel : selector) :
  In k (allElements d) -> In x (querySelectorAllIn k sel) -> In x (allElements d).
Proof.
  unfold allElements, querySelectorAllIn. intros Hk Hx.
  apply in_map_iff in Hk. destruct Hk as ([anc k'] & Heq & Hk).
  cbn [snd] in Heq. subst k'.
  apply (walk_subtree (n := depth (documentElement d))
                      (documentElement d) [] anc k x (le_n _) Hk).
  apply in_map_iff in Hx. destruct Hx as (y & Hy & Hin).
  apply filter_In in Hin. destruct Hin as [Hin _].
  rewrite walk_unfold in Hin. cbn [tl] in Hin.
  rewrite walk_unfold. cbn [map snd]. right. apply in_map_iff. now exists y.
Qed.

Lemma heuristic_accountedFor (d : Document) (sel : selector) (e : Element)
      (s : Strategy) :
  In e (querySelectorAll d sel) ->
  s <> InfiniteScroll ->
  accountedFor d s (heuristicCandidate e s (confidenceOf s)).
Proof.
  intros Hin Hs. exists e. unfold heuristicCandidate. cbn.
  repeat split; eauto using querySelectorAll_in_document.
  destruct s; try reflexivity. congruence.
Qed.

Lemma rel_accountedFor (d : Document) (c : Candidate) :
  findByRelAttribute d = Some c -> accountedFor d RelAttribute c.
Proof.
  unfold findByRelAttribute. induction relPatterns as [|r rest IH];
    cbn [relLoop]; [discriminate|].
  destruct (querySelector d (relSelector r)) as [l|] eqn:Hq; [|exact IH].
  destruct (isValidNextPageElement (Some l)); [|exact IH].
  intros [= <-]. exists l. repeat split.
  now apply (querySelector_in_document d (relSelector r)).
Qed.

Lemma text_accountedFor (d : Document) (c : Candidate) :
  findByTextContent d = Some c -> accountedFor d TextContent c.
Proof.
  unfold findByTextContent. rewrite (textLinkLoop_eq d).
  destruct (find _ _) as [e|] eqn:Hf; [|discriminate]. intros [= <-].
  apply find_some in Hf.
  apply (@heuristic_accountedFor d clickableSelector e TextContent);
    [tauto | discriminate].
Qed.

Lemma classId_accountedFor (d : Document) (c : Candidate) :
  findByClassId d = Some c -> accountedFor d ClassId c.
Proof.
  intros H. apply classPatternLoop_some in H.
  destruct H as (p & e & _ & He & _ & _ & ->).
  apply (@heuristic_accountedFor d clickableSelector e ClassId);
    [exact He | discriminate].
Qed.

Lemma aria_accountedFor (d : Document) (c : Candidate) :
  findByAriaLabel d = Some c -> accountedFor d AriaLabel c.
Proof.
  unfold findByAriaLabel. rewrite ariaElementLoop_eq.
  destruct (find _ _) as [e|] eqn:Hf; [|discriminate]. intros [= <-].
  apply find_some in Hf.
  apply (@heuristic_accountedFor d ariaSelector e AriaLabel);
    [tauto | discriminate].
Qed.

Lemma numbered_accountedFor (d : Document) (c : Candidate) :
  findNumberedPagination d = Some c -> accountedFor d NumberedPagination c.
Proof.
  unfold findNumberedPagination. intros H. apply numberedLoop_iff in H.
  destruct H as (pre & sel & post & _ & _ & Hr). unfold containerResult in Hr.
  destruct (querySelector d sel) as [k|] eqn:Hq; [|discriminate].
  apply numberedInContainer_iff in Hr.
  destruct Hr as (bf & cur & nxt & af & Hl & _ & _ & _ & ->).
  exists nxt. repeat split.
  apply (@container_links_in_document d k nxt linkSelector).
  - now apply (querySelector_in_document d sel).
  - rewrite Hl. apply in_or_app. right. right. now left.
Qed.

Section Provenance.
Context {host : Host}.

Lemma infinite_accountedFor (d : Document) (c : Candidate) :
  findInfiniteScrollButton d = Some c -> accountedFor d InfiniteScroll c.
Proof.
  unfold findInfiniteScrollButton. rewrite buttonLoop_eq.
  destruct (find _ _) as [b|] eqn:Hf; [|discriminate]. intros [= <-].
  apply find_some in Hf. exists b. repeat split.
  apply (querySelectorAll_in_document d buttonSelector). tauto.
Qed.

Lemma matcherOf_accountedFor (d : Document) (s : Strategy) (c : Candidate) :
  matcherOf s d = Some c -> accountedFor d s c.
Proof.
  destruct s; cbn [matcherOf].
  - apply rel_accountedFor.
  - apply text_accountedFor.
  - apply classId_accountedFor.
  - apply aria_accountedFor.
  - apply numbered_accountedFor.
  - apply infinite_accountedFor.
Qed.

Lemma findNextPage_source (d : Document) (c : Candidate) :
  findNextPage d = Some c ->
  exists s, matcherOf s d = Some c
            /\ forall s', (rank s' < rank s)%nat -> matcherOf s' d = None.
Proof.
  rewrite findNextPage_unfold.
  destruct (findByRelAttribute d) eqn:H0.
  { intros [= <-]. exists RelAttribute. split; [exact H0|].
    intros s'; destruct s'; cbn [rank]; lia. }
  destruct (findByTextContent d) eqn:H1.
  { intros [= <-]. exists TextContent. split; [exact H1|].
    intros s'; destruct s'; cbn [rank matcherOf]; try lia; auto. }
  destruct (findByClassId d) eqn:H2.
  { intros [= <-]. exists ClassId. split; [exact H2|].
    intros s'; destruct s'; cbn [rank matcherOf]; try lia; auto. }
  destruct (findByAriaLabel d) eqn:H3.
  { intros [= <-]. exists AriaLabel. split; [exact H3|].
    intros s'; destruct s'; cbn [rank matcherOf]; try lia; auto. }
  destruct (findNumberedPagination d) eqn:H4.
  { intros [= <-]. exists NumberedPagination. split; [exact H4|].
    intros s'; destruct s'; cbn [rank matcherOf]; try lia; auto. }
  intros H5. exists InfiniteScroll. split; [exact H5|].
  intros s'; destruct s'; cbn [rank matcherOf]; try lia; auto.
Qed.

(** X6.  Every candidate [findNextPage] returns holds an element of the
    document, the confidence fixed for its type (1.0, 0.9, 0.8, 0.85,
    0.95, 0.7), and the load-more flag exactly when its type is
    infinite-scroll. *)
Theorem X6_candidates_are_well_formed (d : Document) (c : Candidate) :
  findNextPage d = Some c ->
  exists e,
    element c = Some e /\ In e (allElements d)
    /\ confidence c = confidenceOf (type c)
    /\ (isLoadMore c = Some true <-> type c = InfiniteScroll).
Proof.
  intros H. destruct (findNextPage_source d H) as (s & Hs & _).
  apply matcherOf_accountedFor in Hs.
  destruct Hs as (e & He & Hin & Ht & Hc & Hl).
  exists e. rewrite Ht, Hl. repeat split; auto; destruct s; congruence.
Qed.

(** X14.  The type of the candidate [findNextPage] returns names the
    matcher that produced it, and every matcher of higher priority
    returned null on the document. *)
Theorem X14_type_names_the_first_successful_matcher
        (d : Document) (c : Candidate) :
  findNextPage d = Some c ->
  matcherOf (type c) d = Some c
  /\ forall s, (rank s < rank (type c))%nat -> matcherOf s d = None.
Proof.
  intros H. destruct (findNextPage_source d H) as (s & Hs & Hb).
  pose proof (matcherOf_accountedFor d s Hs) as (e & _ & _ & Ht & _).
  rewrite Ht. split; assumption.
Qed.

Lemma pageLink_bounds_current (d : Document) (e : Element) (n : Z) :
  In e (querySelectorAll d pageLinkSelector) ->
  parseInt (getElementText (Some e)) = Some n ->
  exists m, totalPages (getPaginationInfo d) = Some m /\ (n <= m)%Z.
Proof.
  intros Hin Hn. unfold getPaginationInfo. cbn [totalPages].
  assert (Hmem : In n (pageNumbersOf (querySelectorAll d pageLinkSelector)))
    by (apply pageNumbersOf_In; now exists e).
  destruct (pageNumbersOf _) as [|k rest]; [destruct Hmem|].
  destruct (mathMax_spec rest k) as [_ Hle].
  exists (mathMax k rest). split; [reflexivity | now apply Hle].
Qed.

(** X12.  When the element [getPaginationInfo] reads the current page
    from is one of the page links and its text parses, a total is
    reported and the current page does not exceed it. *)
Theorem X12_current_page_within_total
        (d : Document) (e : Element) (rest : list Element) (n : Z) :
  querySelectorAll d currentSelector = e :: rest ->
  In e (querySelectorAll d pageLinkSelector) ->
  parseInt (getElementText (Some e)) = Some n ->
  exists m,
    currentPage (getPaginationInfo d) = n
    /\ totalPages (getPaginationInfo d) = Some m
    /\ (n <= m)%Z.
Proof.
  intros Hq Hin Hn. destruct (pageLink_bounds_current d e Hin Hn) as (m & Hm & Hle).
  exists m. repeat split; auto.
  unfold getPaginationInfo, querySelector. cbn [currentPage].
  rewrite Hq. cbn [hd_error]. now rewrite Hn.
Qed.

End Provenance.

Lemma X6_witness_priority_page :
  exists e,
    element (relCandidate relNext) = Some e
    /\ In e (allElements docPriority)
    /\ confidence (relCandidate relNext) = confidenceOf (type (relCandidate relNext))
    /\ (isLoadMore (relCandidate relNext) = Some true
        <-> type (relCandidate relNext) = InfiniteScroll).
Proof.
  apply (@X6_candidates_are_well_formed latin1Host docPriority).
  vm_compute. reflexivity.
Defined.

Lemma X14_witness_load_more_page :
  matcherOf (type (loadMoreCandidate docLoadMore loadMore)) docLoadMore
  = Some (loadMoreCandidate docLoadMore loadMore)
  /\ forall s,
       (rank s < rank (type (loadMoreCandidate docLoadMore loadMore)))%nat ->
       matcherOf s docLoadMore = None.
Proof.
  apply (@X14_type_names_the_first_successful_matcher latin1Host docLoadMore).
  vm_compute. reflexivity.
Defined.

Lemma X12_witness_three_pages :
  exists m,
    currentPage (getPaginationInfo docThreePages) = 2%Z
    /\ totalPages (getPaginationInfo docThreePages) = Some m
    /\ (2 <= m)%Z.
Proof.
  apply (@X12_current_page_within_total latin1Host docThreePages currentTwo []).
  - vm_compute. reflexivity.
  - vm_compute. right. left. reflexivity.
  - vm_compute. reflexivity.
Defined.

(** *** What a navigation leaves behind *)

(** X15.  A call of [navigateToNextPage] ends in one of six ways: false
    with nothing done (absent candidate or element); false with one error
    logged and nothing done (the click or the assignment raised); false
    with one click done and then one error logged (the wait raised for
    want of a body); true after one assignment to the location and
    nothing else; true after one click followed by the wait; or still
    waiting after one click.  It never clicks and navigates in the same
    call, never does either twice, and never returns true without having
    done one. *)
Theorem X15_navigation_ends_in_one_of_six_ways
        (w : World) (fuel : nat) (info : option Candidate) (log : list Event) :
  NavigationEnd log (navigateToNextPage w fuel info log).
Proof.
  destruct info as [info|]; [|apply EndGuard].
  destruct (element info) as [el|] eqn:He;
    [|unfold navigateToNextPage; rewrite He; apply EndGuard].
  destruct (isTrue (isLoadMore info)) eqn:Hl.
  - rewrite (navigate_click_path w fuel info log He (or_introl Hl)).
    destruct (clickThrows w el); [apply EndError|].
    destruct (bodyPresent w); [|apply EndWaitError].
    destruct (waitForNewContent _ _ _) as [[b j]|];
      [apply EndClicked | apply EndWaiting].
  - destruct (truthy (url info)) eqn:Hu.
    + rewrite (navigate_url_path w fuel info log He Hl Hu).
      destruct (navigationThrows _ _); [apply EndError | apply EndNavigated].
    + rewrite (navigate_click_path w fuel info log He (or_intror Hu)).
      destruct (clickThrows w el); [apply EndError|].
      destruct (bodyPresent w); [|apply EndWaitError].
      destruct (waitForNewContent _ _ _) as [[b j]|];
        [apply EndClicked | apply EndWaiting].
Qed.

(** X17.  A candidate of the rel-attribute or numbered-pagination matcher
    carries the href property of its link as url; [navigateToNextPage]
    assigns it to the location when it is a non-empty string and
    otherwise clicks the link and waits (false, the click done and the
    error logged, when the wait raises for want of a body). *)
Theorem X17_links_are_followed_by_href_or_clicked
        (d : Document) (c : Candidate) (w : World) (fuel : nat)
        (log : list Event) :
  linkMatch d c ->
  exists l,
    element c = Some l /\ url c = hrefProp (props l)
    /\ navigateToNextPage w fuel (Some c) log
       = if truthy (hrefProp (props l))
         then navigationOutcome w (orEmpty (hrefProp (props l))) log
         else clickOutcome w fuel l log.
Proof.
  intros H.
  assert (Hc : exists l, c = mkCandidate (Some l) (hrefProp (props l))
                                         (type c) (confidence c) None None).
  { destruct H as [H | H].
    - unfold findByRelAttribute in H.
      induction relPatterns as [|r rest IH]; cbn [relLoop] in H; [discriminate|].
      destruct (querySelector d (relSelector r)) as [l|]; [|now apply IH].
      destruct (isValidNextPageElement (Some l)); [|now apply IH].
      injection H as <-. now exists l.
    - unfold findNumberedPagination in H. apply numberedLoop_iff in H.
      destruct H as (pre & sel & post & _ & _ & Hr). unfold containerResult in Hr.
      destruct (querySelector d sel) as [k|]; [|discriminate].
      apply numberedInContainer_iff in Hr.
      destruct Hr as (bf & cur & nxt & af & _ & _ & _ & _ & ->). now exists nxt. }
  destruct Hc as [l Hc]. exists l.
  assert (He : element c = Some l) by (rewrite Hc; reflexivity).
  assert (Hu : url c = hrefProp (props l)) by (rewrite Hc; reflexivity).
  assert (Hl : isTrue (isLoadMore c) = false) by (rewrite Hc; reflexivity).
  repeat split; auto.
  destruct (truthy (hrefProp (props l))) eqn:Ht.
  - unfold navigationOutcome. rewrite <- Hu.
    apply (@navigate_url_path w fuel c l log He Hl). now rewrite Hu.
  - unfold clickOutcome.
    apply (@navigate_click_path w fuel c l log He). right. now rewrite Hu.
Qed.

Lemma X17_witness_rel_link :
  exists l,
    element (relCandidate relNext) = Some l
    /\ url (relCandidate relNext) = hrefProp (props l)
    /\ navigateToNextPage stillWorld 60 (Some (relCandidate relNext)) []
       = if truthy (hrefProp (props l))
         then navigationOutcome stillWorld (orEmpty (hrefProp (props l))) []
         else clickOutcome stillWorld 60 l [].
Proof.
  apply (@X17_links_are_followed_by_href_or_clicked docPriority).
  left. vm_compute. reflexivity.
Defined.

Section HasNext.
Context {host : Host}.

(** X16.  [getPaginationInfo] reports hasNext as soon as any one of the
    six matchers finds a candidate, a load-more button included; it
    reports no next page only when all six return null. *)
Theorem X16_hasNext_when_any_matcher_succeeds (d : Document) :
  hasNext (getPaginationInfo d) = true <->
  exists s c, matcherOf s d = Some c.
Proof.
  unfold getPaginationInfo. cbn [hasNext]. split.
  - destruct (findNextPage d) as [c|] eqn:H; [|discriminate]. intros _.
    destruct (findNextPage_source d H) as (s & Hs & _). now exists s, c.
  - intros (s & c & Hs). rewrite findNextPage_unfold.
    destruct (findByRelAttribute d) eqn:H0; [reflexivity|].
    destruct (findByTextContent d) eqn:H1; [reflexivity|].
    destruct (findByClassId d) eqn:H2; [reflexivity|].
    destruct (findByAriaLabel d) eqn:H3; [reflexivity|].
    destruct (findNumberedPagination d) eqn:H4; [reflexivity|].
    destruct (findInfiniteScrollButton d) eqn:H5; [reflexivity|].
    destruct s; cbn [matcherOf] in Hs; congruence.
Qed.

End HasNext.
